(** * rv-spec-grep: the data-generation script [scripts/build-data.ts]

    A shallow embedding of the build script that parses the riscv-opcodes
    encoding files and the CSR table, mines the AsciiDoc manual for
    descriptions, and assembles the dataset, followed by the properties the
    specification states about it.

    The script leans on the JavaScript runtime: strings of UTF-16 code units,
    [parseInt], and backtracking regular expressions.  Module [JS] models the
    part of the runtime the script uses; module [BuildData] is the script. *)

From stdpp Require Import base option list gmap strings.
From Stdlib Require Import Ascii NArith ZArith Lia.

Set Default Proof Using "Type".
Set Warnings "-clear-no-such-hyp".

(** ** The JavaScript runtime *)

Module JS.

(** A JavaScript string is a sequence of UTF-16 code units. *)
Abbreviation str := (list N).

Fixpoint u (s : string) : str :=
  match s with
  | EmptyString => []
  | String a s' => Ascii.N_of_ascii a :: u s'
  end.
Arguments u _%_string : simpl never.

Definition ch (a : Ascii.ascii) : N := Ascii.N_of_ascii a.
Arguments ch _%_char : simpl never.

Definition LF : N := 10.
Definition DQUOTE : N := 34.

(** *** Character classes *)

(** [WhiteSpace] and [LineTerminator] of ECMA-262: what [\s] matches and what
    [trim] strips. *)
Definition is_space (c : N) : bool :=
  existsb (N.eqb c)
    [9; 10; 11; 12; 13; 32; 160; 0x1680; 0x2028; 0x2029; 0x202F; 0x205F;
     0x3000; 0xFEFF]%N
  || ((0x2000 <=? c) && (c <=? 0x200A))%N.

(** What [.] refuses. *)
Definition is_line_terminator (c : N) : bool :=
  existsb (N.eqb c) [10; 13; 0x2028; 0x2029]%N.

Definition is_digit (c : N) : bool := ((48 <=? c) && (c <=? 57))%N.
Definition is_upper (c : N) : bool := ((65 <=? c) && (c <=? 90))%N.
Definition is_lower (c : N) : bool := ((97 <=? c) && (c <=? 122))%N.
Definition is_word (c : N) : bool :=
  is_digit c || is_upper c || is_lower c || (c =? 95)%N.

(** Case folding as an ASCII pattern can observe it.  In a regular expression
    without the [u] flag, [Canonicalize] never maps a code unit above 127 to
    one below 128, so against the ASCII literals and ranges of this script two
    code units are equal up to case exactly when they are equal or are the two
    cases of one ASCII letter. *)
Definition swapcase (c : N) : N :=
  if is_upper c then (c + 32)%N else if is_lower c then (c - 32)%N else c.

(** [String.prototype.toLowerCase] on ASCII text.  The description scans
    apply it to what a pattern over ASCII letters, digits, [_] and [.]
    captured, where it is exact. *)
Definition toLowerCase (s : str) : str :=
  map (fun c => if is_upper c then (c + 32)%N else c) s.

(** On other text [String.prototype.toLowerCase] is the case conversion of
    the Unicode standard as the runtime has it, with its special cases: U+0130
    lowers to two code units, a capital sigma by what surrounds it.  That
    conversion is not fixed here.  Where the script lowers text that no
    pattern has vetted, the names of the records it merges, the conversion is
    a parameter [lower]; [lowers_ascii] is what is known of it. *)
Definition is_ascii (c : N) : bool := (c <? 128)%N.

Definition lowers_ascii (lower : str -> str) : Prop :=
  forall s, Forall (fun c => is_ascii c = true) s -> lower s = toLowerCase s.

(** *** String primitives *)

Definition str_eqb (a b : str) : bool := bool_decide (a = b).

Fixpoint startsWith (s p : str) : bool :=
  match p, s with
  | [], _ => true
  | c :: p', x :: s' => (x =? c)%N && startsWith s' p'
  | _ :: _, [] => false
  end.

Fixpoint includes (s sub : str) : bool :=
  startsWith s sub ||
  match s with
  | [] => false
  | _ :: s' => includes s' sub
  end.

Fixpoint trimStart (s : str) : str :=
  match s with
  | [] => []
  | x :: s' => if is_space x then trimStart s' else s
  end.

Definition trimEnd (s : str) : str := rev (trimStart (rev s)).

Definition trim (s : str) : str := trimEnd (trimStart s).

(** [s.slice(a, b)] and [s.slice(a)] for non-negative indices. *)
Definition slice (s : str) (a b : nat) : str := take (b - a) (drop a s).
Definition sliceFrom (s : str) (a : nat) : str := drop a s.

(** [parts.join(sep)]. *)
Fixpoint join (sep : str) (l : list str) : str :=
  match l with
  | [] => []
  | [x] => x
  | x :: l' => x ++ sep ++ join sep l'
  end.

(** [s.split(sep)] for a non-empty separator string: cut at every
    occurrence, left to right, without overlap. *)
Fixpoint split_go (sep : str) (skip : nat) (cur : str) (s : str) : list str :=
  match s with
  | [] => [rev cur]
  | x :: s' =>
      match skip with
      | S n => split_go sep n cur s'
      | O =>
          if startsWith s sep
          then rev cur :: split_go sep (length sep - 1) [] s'
          else split_go sep 0 (x :: cur) s'
      end
  end.

Definition split (s sep : str) : list str := split_go sep 0 [] s.

(** *** Numbers *)

(** The Number values [parseInt] can return: NaN, an integer-valued double
    with its sign (so that [-0] is told from [+0]), or an infinity. *)
Inductive Number :=
| NaN
| Num (neg : bool) (mag : N)
| Infinity (neg : bool).

#[export] Instance Number_eq_dec : EqDecision Number.
Proof. solve_decision. Defined.

Abbreviation Int n := (Num false n).

(** The double nearest to a natural number (ties to even); [None] when it
    overflows the finite range. *)
Definition double_of_N (n : N) : option N :=
  if (n <? 2 ^ 53)%N then Some n
  else
    let e := (N.log2 n - 52)%N in
    let q := (n / 2 ^ e)%N in
    let r := (n mod 2 ^ e)%N in
    let half := (2 ^ (e - 1))%N in
    let q' := if (half <? r)%N || ((r =? half)%N && N.odd q)
              then (q + 1)%N else q in
    let v := (q' * 2 ^ e)%N in
    if (v <? 2 ^ 1024)%N then Some v else None.

Definition number_of_N (neg : bool) (n : N) : Number :=
  match double_of_N n with
  | Some v => Num neg v
  | None => Infinity neg
  end.

(** [x >= n] and [x < n] against a non-negative integer literal; every
    comparison with NaN is false. *)
Definition num_ge (x : Number) (n : N) : bool :=
  match x with
  | NaN => false
  | Num neg m => if neg then (m =? 0)%N && (n =? 0)%N else (n <=? m)%N
  | Infinity neg => negb neg
  end.

Definition num_lt (x : Number) (n : N) : bool :=
  match x with
  | NaN => false
  | Num neg m => if neg then negb ((m =? 0)%N && (n =? 0)%N) else (m <? n)%N
  | Infinity neg => neg
  end.

(** The value of a code unit as a digit, for radices up to 36. *)
Definition digit_value (c : N) : option N :=
  if is_digit c then Some (c - 48)%N
  else if is_lower c then Some (c - 87)%N
  else if is_upper c then Some (c - 55)%N
  else None.

Definition is_radix_digit (radix : N) (c : N) : bool :=
  match digit_value c with
  | Some d => (d <? radix)%N
  | None => false
  end.

(** The value of the longest prefix of radix-[radix] digits, and whether that
    prefix has a digit at all. *)
Fixpoint digits_value (radix : N) (acc : N) (seen : bool) (s : str) : option N :=
  match s with
  | [] => if seen then Some acc else None
  | c :: s' =>
      match digit_value c with
      | Some d =>
          if (d <? radix)%N then digits_value radix (radix * acc + d)%N true s'
          else if seen then Some acc else None
      | None => if seen then Some acc else None
      end
  end.

(** [parseInt(s, radix)] for an absent radix ([None]) or radix 16, the two uses
    in the script: strip leading white space, read a sign, strip a [0x] or
    [0X] prefix (always allowed for radix 16, and what selects radix 16 when
    the radix is absent), then read digits.  For more than 20 decimal digits
    ECMA-262 leaves the rounding to the implementation; the model takes the
    correctly rounded double, which is what V8 returns. *)
Definition parseInt (s : str) (radix : option N) : Number :=
  let s1 := trimStart s in
  let neg := startsWith s1 [ch "-"] in
  let s2 := if neg || startsWith s1 [ch "+"] then drop 1 s1 else s1 in
  let hex := startsWith s2 (u "0x") || startsWith s2 (u "0X") in
  let r := match radix with
           | Some r => r
           | None => if hex then 16%N else 10%N
           end in
  let s3 := if hex && (r =? 16)%N then drop 2 s2 else s2 in
  match digits_value r 0 false s3 with
  | None => NaN
  | Some n => number_of_N neg n
  end.

(** *** Regular expressions *)

(** Character classes of a pattern: a bracket expression over ranges (a single
    character is a range of one), [\s] and [\S], [\d], [\w], and [.]. *)
Inductive cls :=
| CRanges (neg : bool) (rs : list (N * N))
| CSpace (neg : bool)
| CDigit
| CWord
| CDot.

(** Pattern syntax: the empty pattern, a literal character, a class,
    concatenation, alternation, a greedy quantifier [{lo,hi}] ([hi = None] for
    no upper bound), a capturing group with its number, [^] and [$].  A
    non-capturing group [(?:r)] is [r] itself. *)
Inductive re :=
| Eps
| Chr (c : N)
| Cls (c : cls)
| Seq (a b : re)
| Alt (a b : re)
| Rep (lo : nat) (hi : option nat) (r : re)
| Grp (i : nat) (r : re)
| Bol
| Eol.

(** A pattern with its [i] and [m] flags.  The [g] flag is carried by the
    operation: [matchAll] and [replace_g] are the global ones. *)
Record regex := Regex { re_body : re; re_i : bool; re_m : bool }.

Definition Star (r : re) : re := Rep 0 None r.
Definition Plus (r : re) : re := Rep 1 None r.
Definition Opt (r : re) : re := Rep 0 (Some 1) r.

(** A literal run of characters. *)
Fixpoint Lit (s : str) : re :=
  match s with
  | [] => Eps
  | [c] => Chr c
  | c :: s' => Seq (Chr c) (Lit s')
  end.

Fixpoint Seqs (l : list re) : re :=
  match l with
  | [] => Eps
  | [r] => r
  | r :: l' => Seq r (Seqs l')
  end.

Fixpoint Alts (l : list re) : re :=
  match l with
  | [] => Eps
  | [r] => r
  | r :: l' => Alt r (Alts l')
  end.

(** [[c]] and [[^c]]. *)
Definition One (c : N) : cls := CRanges false [(c, c)].
Definition Not (c : N) : cls := CRanges true [(c, c)].

Definition in_ranges (rs : list (N * N)) (x : N) : bool :=
  existsb (fun r => (fst r <=? x)%N && (x <=? snd r)%N) rs.

Definition chr_match (icase : bool) (c x : N) : bool :=
  (x =? c)%N || (icase && (swapcase x =? c)%N).

Definition cls_match (icase : bool) (cl : cls) (x : N) : bool :=
  match cl with
  | CRanges neg rs =>
      xorb neg (in_ranges rs x || (icase && in_ranges rs (swapcase x)))
  | CSpace neg => xorb neg (is_space x)
  | CDigit => is_digit x
  | CWord => is_word x
  | CDot => negb (is_line_terminator x)
  end.

(** The matcher's state: the code unit just before the current position (for
    [^] under the [m] flag), the input from the current position on, and the
    captures recorded so far (latest first). *)
Record mstate := MState {
  ms_prev : option N;
  ms_rest : str;
  ms_caps : list (nat * str)
}.

Definition ms_step (st : mstate) (x : N) (rest : str) : mstate :=
  MState (Some x) rest (ms_caps st).

(** The text between two states of one run. *)
Definition consumed (st st' : mstate) : str :=
  take (length (ms_rest st) - length (ms_rest st')) (ms_rest st).

(** The state after the run [w] of the input, with [tail] left to read. *)
Definition ms_skip_prev (prev : option N) (w : str) : option N :=
  fold_left (fun _ x => Some x) w prev.

Definition ms_skip (st : mstate) (w tail : str) : mstate :=
  MState (ms_skip_prev (ms_prev st) w) tail (ms_caps st).

Definition ms_capture (i : nat) (st st' : mstate) : mstate :=
  MState (ms_prev st') (ms_rest st') ((i, consumed st st') :: ms_caps st').

Definition at_bol (multiline : bool) (st : mstate) : bool :=
  match ms_prev st with
  | None => true
  | Some c => multiline && is_line_terminator c
  end.

Definition at_eol (multiline : bool) (st : mstate) : bool :=
  match ms_rest st with
  | [] => true
  | c :: _ => multiline && is_line_terminator c
  end.

Definition hi_more (hi : option nat) : bool :=
  match hi with Some O => false | _ => true end.

Definition hi_pred (hi : option nat) : option nat :=
  match hi with Some n => Some (pred n) | None => None end.

(** The backtracking matcher of ECMA-262, in continuation-passing style:
    [rmatch r st k] is the first success, in the priority order of the
    language, of matching [r] from [st] and then running the continuation [k].
    The quantifier is RepeatMatcher: while iterations are still owed
    ([lo > 0]) the body must match; afterwards one more iteration is tried
    first (greedy), an iteration that consumes nothing is refused, and the
    continuation is the fallback.  No quantified sub-pattern of the script
    holds a capturing group, so the reset of captures on re-entry is not
    modelled. *)
Section Matcher.
Variables (icase multiline : bool).

(** RepeatMatcher, over the matcher [body] of the quantified pattern. *)
Fixpoint rep_loop (body : mstate -> (mstate -> option mstate) -> option mstate)
  (k : mstate -> option mstate) (fuel lo : nat) (hi : option nat)
  (st : mstate) {struct fuel} : option mstate :=
  let stop := match lo with O => k st | S _ => None end in
  match fuel with
  | O => stop
  | S fuel' =>
      if hi_more hi then
        match
          body st (fun st' =>
            if (0 <? lo)%nat || (length (ms_rest st') <? length (ms_rest st))%nat
            then rep_loop body k fuel' (pred lo) (hi_pred hi) st'
            else None)
        with
        | Some res => Some res
        | None => stop
        end
      else stop
  end.

Fixpoint rmatch (r : re) (st : mstate) (k : mstate -> option mstate)
  {struct r} : option mstate :=
  match r with
  | Eps => k st
  | Chr c =>
      match ms_rest st with
      | x :: rest => if chr_match icase c x then k (ms_step st x rest) else None
      | [] => None
      end
  | Cls cl =>
      match ms_rest st with
      | x :: rest => if cls_match icase cl x then k (ms_step st x rest) else None
      | [] => None
      end
  | Seq a b => rmatch a st (fun st' => rmatch b st' k)
  | Alt a b =>
      match rmatch a st k with
      | Some res => Some res
      | None => rmatch b st k
      end
  | Rep lo hi body =>
      rep_loop (rmatch body) k (S (lo + length (ms_rest st))) lo hi st
  | Grp i body => rmatch body st (fun st' => k (ms_capture i st st'))
  | Bol => if at_bol multiline st then k st else None
  | Eol => if at_eol multiline st then k st else None
  end.

(** The states a pattern can lead to, without the priorities: what the
    matcher's results are drawn from. *)
Inductive matches : re -> mstate -> mstate -> Prop :=
| M_eps st : matches Eps st st
| M_chr c x rest st :
    ms_rest st = x :: rest -> chr_match icase c x = true ->
    matches (Chr c) st (ms_step st x rest)
| M_cls cl x rest st :
    ms_rest st = x :: rest -> cls_match icase cl x = true ->
    matches (Cls cl) st (ms_step st x rest)
| M_seq a b st1 st2 st3 :
    matches a st1 st2 -> matches b st2 st3 -> matches (Seq a b) st1 st3
| M_alt_l a b st st' : matches a st st' -> matches (Alt a b) st st'
| M_alt_r a b st st' : matches b st st' -> matches (Alt a b) st st'
| M_rep_stop hi body st : matches (Rep 0 hi body) st st
| M_rep_more lo hi body st1 st2 st3 :
    hi_more hi = true -> matches body st1 st2 ->
    matches (Rep (pred lo) (hi_pred hi) body) st2 st3 ->
    matches (Rep lo hi body) st1 st3
| M_grp i body st st' :
    matches body st st' -> matches (Grp i body) st (ms_capture i st st')
| M_bol st : at_bol multiline st = true -> matches Bol st st
| M_eol st : at_eol multiline st = true -> matches Eol st st.
End Matcher.

(** A match: [index], the matched text [m[0]], the captures, and the state
    after the match, from which a global operation goes on. *)
Record rmatch_result := MResult {
  m_index : nat;
  m_text : str;
  m_caps : list (nat * str);
  m_end : mstate
}.

(** [m[i]]; [undefined] is not modelled apart: every group of this script's
    patterns takes part in every match. *)
Fixpoint cap_lookup (caps : list (nat * str)) (i : nat) : str :=
  match caps with
  | [] => []
  | (j, s) :: caps' => if (i =? j)%nat then s else cap_lookup caps' i
  end.

Definition group (m : rmatch_result) (i : nat) : str := cap_lookup (m_caps m) i.

Definition match_at (rx : regex) (prev : option N) (rest : str) : option mstate :=
  rmatch (re_i rx) (re_m rx) (re_body rx) (MState prev rest []) Some.

(** RegExpBuiltinExec without the sticky flag: the first index from [pos] on
    at which the pattern matches. *)
Fixpoint search_at (rx : regex) (prev : option N) (pos : nat) (rest : str)
  {struct rest} : option rmatch_result :=
  match match_at rx prev rest with
  | Some st' =>
      Some (MResult pos (take (length rest - length (ms_rest st')) rest)
              (ms_caps st') st')
  | None =>
      match rest with
      | [] => None
      | x :: rest' => search_at rx (Some x) (S pos) rest'
      end
  end.

(** [s.match(rx)] for a pattern without [g], and [rx.exec(s)]. *)
Definition exec (rx : regex) (s : str) : option rmatch_result :=
  search_at rx None 0 s.

(** [rx.test(s)]. *)
Definition test (rx : regex) (s : str) : bool := bool_decide (is_Some (exec rx s)).

(** [s.search(rx)]: [None] is the [-1] of JavaScript. *)
Definition search (s : str) (rx : regex) : option nat := m_index <$> exec rx s.

(** Where a global operation resumes after a match that ended in state [st]
    at index [e]: at [e], or one code unit further when the match was empty
    (AdvanceStringIndex); [None] when that is past the end. *)
Definition resume (m : rmatch_result) : option (option N * nat * str * str) :=
  let e := (m_index m + length (m_text m))%nat in
  match m_text m with
  | _ :: _ => Some (ms_prev (m_end m), e, [], ms_rest (m_end m))
  | [] =>
      match ms_rest (m_end m) with
      | [] => None
      | x :: rest' => Some (Some x, S e, [x], rest')
      end
  end.

(** [s.matchAll(rx)] for a [g] pattern, as the list of its matches. *)
Fixpoint matchAll_from (fuel : nat) (rx : regex) (prev : option N) (pos : nat)
  (rest : str) : list rmatch_result :=
  match fuel with
  | O => []
  | S fuel' =>
      match search_at rx prev pos rest with
      | None => []
      | Some m =>
          m :: match resume m with
               | None => []
               | Some (prev', pos', _, rest') =>
                   matchAll_from fuel' rx prev' pos' rest'
               end
      end
  end.

Definition matchAll (s : str) (rx : regex) : list rmatch_result :=
  matchAll_from (S (length s)) rx None 0 s.

(** [s.replace(rx, repl)] for a [g] pattern; [repl] gives the expansion of the
    replacement string for a match. *)
Fixpoint replace_from (fuel : nat) (rx : regex) (repl : rmatch_result -> str)
  (prev : option N) (pos : nat) (rest : str) : str :=
  match fuel with
  | O => rest
  | S fuel' =>
      match search_at rx prev pos rest with
      | None => rest
      | Some m =>
          take (m_index m - pos) rest ++ repl m ++
          match resume m with
          | None => []
          | Some (prev', pos', skipped, rest') =>
              skipped ++ replace_from fuel' rx repl prev' pos' rest'
          end
      end
  end.

Definition replace_g (s : str) (rx : regex) (repl : rmatch_result -> str) : str :=
  replace_from (S (length s)) rx repl None 0 s.

(** The replacement strings of the script: ['$1'] and a literal. *)
Definition dollar1 : rmatch_result -> str := fun m => group m 1.
Definition literally (s : str) : rmatch_result -> str := fun _ => s.

(** [s.split(rx)], RegExp.prototype[Symbol.split] for a pattern without
    groups: at each index [q] the pattern is tried at [q] only; a match that
    ends where the current piece began is skipped; otherwise the piece is cut
    and scanning resumes at the end of the match.  [cur] is the current piece,
    reversed. *)
Fixpoint split_re_from (fuel : nat) (rx : regex) (prev : option N) (cur : str)
  (rest : str) : list str :=
  match fuel with
  | O => [rev cur ++ rest]
  | S fuel' =>
      match rest with
      | [] => [rev cur]
      | x :: rest' =>
          match match_at rx prev rest with
          | None => split_re_from fuel' rx (Some x) (x :: cur) rest'
          | Some st' =>
              match cur, consumed (MState prev rest []) st' with
              | [], [] => split_re_from fuel' rx (Some x) (x :: cur) rest'
              | _, _ =>
                  rev cur ::
                  split_re_from fuel' rx (ms_prev st') [] (ms_rest st')
              end
          end
      end
  end.

Definition split_re (s : str) (rx : regex) : list str :=
  match s with
  | [] => match match_at rx None [] with Some _ => [] | None => [[]] end
  | _ => split_re_from (S (2 * length s)) rx None [] s
  end.

End JS.

(** ** The build script *)

Module BuildData.
Import JS.

(** [value] is declared [number | string]; the parser only ever stores the
    number [parseInt] returned.  The optional [name] of a bit field and the
    optional [format] of an instruction are never set by the script. *)
Inductive field_value :=
| VNumber (n : Number)
| VString (s : str).

Record BitField := mkBitField {
  bf_high : Number;
  bf_low : Number;
  bf_value : field_value
}.

Inductive RecordType := TInstruction | TCsr | TPseudo.

Record Instruction := mkInstruction {
  i_name : str;
  i_extension : str;
  i_operands : list str;
  i_encoding : list BitField;
  i_description : str;
  i_type : RecordType
}.

(** The [type] of a CSR record is the constant ['csr']. *)
Record CSR := mkCSR {
  c_name : str;
  c_address : str;
  c_privilege : str;
  c_description : str
}.

#[export] Instance field_value_eq_dec : EqDecision field_value.
Proof. solve_decision. Defined.
#[export] Instance BitField_eq_dec : EqDecision BitField.
Proof. solve_decision. Defined.
#[export] Instance RecordType_eq_dec : EqDecision RecordType.
Proof. solve_decision. Defined.
#[export] Instance Instruction_eq_dec : EqDecision Instruction.
Proof. solve_decision. Defined.
#[export] Instance CSR_eq_dec : EqDecision CSR.
Proof. solve_decision. Defined.

Definition KNOWN_OPERANDS_list : list str := [
  u "rd"; u "rs1"; u "rs2"; u "rs3";
  u "imm12"; u "imm20"; u "jimm20";
  u "bimm12hi"; u "bimm12lo";
  u "simm12hi"; u "simm12lo";
  u "shamtw"; u "shamtd"; u "shamt";
  u "rm"; u "aq"; u "rl";
  u "pred"; u "succ";
  u "csr"; u "zimm";
  u "fm";
  u "rd_p"; u "rs1_p"; u "rs2_p";
  u "c_nzuimm10"; u "c_uimm8sp_s"; u "c_uimm8sp"; u "c_uimm7lo"; u "c_uimm7hi";
  u "c_imm6lo"; u "c_imm6hi"; u "c_nzimm6lo"; u "c_nzimm6hi";
  u "c_nzuimm5"; u "c_nzuimm6lo"; u "c_nzuimm6hi";
  u "c_uimm8lo"; u "c_uimm8hi"; u "c_uimm9lo"; u "c_uimm9hi";
  u "c_nzimm10hi"; u "c_nzimm10lo"; u "c_nzimm18hi"; u "c_nzimm18lo";
  u "c_imm12"; u "c_bimm9lo"; u "c_bimm9hi";
  u "c_nzimm5"; u "c_spimm";
  u "c_index"; u "c_rlist"; u "c_spimm";
  u "vd"; u "vs1"; u "vs2"; u "vs3"; u "vm"; u "nf"; u "wd";
  u "simm5"; u "zimm10"; u "zimm11"; u "zimm5"
].

Definition KNOWN_OPERANDS : gset str := list_to_set KNOWN_OPERANDS_list.

Definition has_operand (part : str) : bool := bool_decide (part ∈ KNOWN_OPERANDS).

(** *** The patterns of the two parsers *)

Definition space : re := Cls (CSpace false).
Definition nonspace : re := Cls (CSpace true).
Definition digit : re := Cls CDigit.
Definition word : re := Cls CWord.
Definition dot : re := Cls CDot.
Definition c (a : ascii) : re := Chr (ch a).
Arguments c _%_char.
Definition rng (a b : ascii) : N * N := (ch a, ch b).
Arguments rng _%_char _%_char.

(** [/\s+/] *)
Definition ws_re : regex := Regex (Plus space) false false.

(** [/\$pseudo_op\s+\S+\s+(\w+)\s+(.{0,})/], where the source writes the
    last quantifier as a star. *)
Definition pseudo_re : regex :=
  Regex (Seqs [Lit (u "$pseudo_op"); Plus space; Plus nonspace; Plus space;
               Grp 1 (Plus word); Plus space; Grp 2 (Star dot)])
        false false.

(** [/^[a-z0-9_.]+$/i] *)
Definition name_re : regex :=
  Regex (Seqs [Bol;
               Plus (Cls (CRanges false
                            [rng "a" "z"; rng "0" "9"; rng "_" "_"; rng "." "."]));
               Eol])
        true false.

(** [/^(\d+)\.\.(\d+)=(.+)$/] *)
Definition range_re : regex :=
  Regex (Seqs [Bol; Grp 1 (Plus digit); c "."; c "."; Grp 2 (Plus digit);
               c "="; Grp 3 (Plus dot); Eol])
        false false.

(** [/^(\d+)=(.+)$/] *)
Definition single_re : regex :=
  Regex (Seqs [Bol; Grp 1 (Plus digit); c "="; Grp 2 (Plus dot); Eol])
        false false.

(** [/^(0x[0-9A-Fa-f]+),\s*Q([^Q]+)Q/], with Q for the double quote. *)
Definition csv_re : regex :=
  Regex (Seqs [Bol;
               Grp 1 (Seq (Lit (u "0x"))
                        (Plus (Cls (CRanges false
                                      [rng "0" "9"; rng "A" "F"; rng "a" "f"]))));
               c ","; Star space; Chr DQUOTE;
               Grp 2 (Plus (Cls (Not DQUOTE))); Chr DQUOTE])
        false false.

(** *** parseEncodingLine *)

(** [value.startsWith('0x') ? parseInt(value, 16) : parseInt(value)] *)
Definition field_number (value : str) : Number :=
  if startsWith value (u "0x") then parseInt value (Some 16%N)
  else parseInt value None.

(** One turn of the loop over the parts of an encoding line.  The last test
    of the loop body, for a named field, has an empty branch. *)
Definition encodingPart (acc : list str * list BitField) (part : str)
  : list str * list BitField :=
  let '(operands, encoding) := acc in
  if has_operand part then (operands ++ [part], encoding)
  else
    match exec range_re part with
    | Some rangeMatch =>
        let high := group rangeMatch 1 in
        let low := group rangeMatch 2 in
        let value := group rangeMatch 3 in
        (operands,
         encoding ++ [mkBitField (parseInt high None) (parseInt low None)
                        (VNumber (field_number value))])
    | None =>
        match exec single_re part with
        | Some singleMatch =>
            let bit := group singleMatch 1 in
            let value := group singleMatch 2 in
            (operands,
             encoding ++ [mkBitField (parseInt bit None) (parseInt bit None)
                            (VNumber (field_number value))])
        | None => (operands, encoding)
        end
    end.

Definition parseEncodingLine (line : str) : list str * list BitField :=
  let parts := split_re line ws_re in
  fold_left encodingPart parts ([], []).

(** *** parseOpcodeFile *)

Definition is_empty (s : str) : bool :=
  match s with [] => true | _ => false end.

(** One turn of the loop over the lines of an opcode file. *)
Definition opcodeLine (extension : str) (instructions : list Instruction)
  (line : str) : list Instruction :=
  let trimmed := trim line in
  if is_empty trimmed || startsWith trimmed (u "#") || startsWith trimmed (u "@")
  then instructions
  else if startsWith trimmed (u "$pseudo_op") then
    match exec pseudo_re trimmed with
    | Some m =>
        let name := group m 1 in
        let rest := group m 2 in
        let '(operands, encoding) := parseEncodingLine rest in
        instructions ++ [mkInstruction name extension operands encoding [] TPseudo]
    | None => instructions
    end
  else if startsWith trimmed (u "$import") then instructions
  else
    let parts := split_re trimmed ws_re in
    if (length parts <? 2)%nat then instructions
    else
      let name := nth 0 parts [] in
      if negb (test name_re name) then instructions
      else
        let '(operands, encoding) :=
          parseEncodingLine (join (u " ") (drop 1 parts)) in
        if (0 <? length encoding)%nat
        then instructions ++
             [mkInstruction name extension operands encoding [] TInstruction]
        else instructions.

Definition parseOpcodeFile (content extension : str) : list Instruction :=
  let lines := split content [LF] in
  fold_left (opcodeLine extension) lines [].

(** *** parseCSVFile *)

(** The chain of range tests on the parsed address. *)
Definition privilegeOf (addr : Number) : str :=
  if num_ge addr 0x100 && num_lt addr 0x200 then u "S"
  else if num_ge addr 0x200 && num_lt addr 0x300 then u "H"
  else if num_ge addr 0x300 && num_lt addr 0x400 then u "M"
  else if num_ge addr 0x500 && num_lt addr 0x600 then u "S"
  else if num_ge addr 0x600 && num_lt addr 0x700 then u "H"
  else if num_ge addr 0x700 && num_lt addr 0x800 then u "M"
  else if num_ge addr 0xB00 && num_lt addr 0xC00 then u "M"
  else if num_ge addr 0xC00 && num_lt addr 0xD00 then u "U"
  else if num_ge addr 0xF00 then u "M"
  else u "U".

Definition csvLine (csrs : list CSR) (line : str) : list CSR :=
  let trimmed := trim line in
  if is_empty trimmed || startsWith trimmed (u "#") then csrs
  else
    match exec csv_re trimmed with
    | Some m =>
        let address := group m 1 in
        let name := group m 2 in
        let addr := parseInt address (Some 16%N) in
        csrs ++ [mkCSR name address (privilegeOf addr) []]
    | None => csrs
    end.

Definition parseCSVFile (content : str) : list CSR :=
  let lines := split content [LF] in
  fold_left csvLine lines [].

(** *** cleanAdocText *)

(** [/\[#norm:[^\]]+\]#([^#]+)#/g]: a normative anchor around its text.  The
    section scans use the same pattern. *)
Definition norm_span_re : regex :=
  Regex (Seqs [Lit (u "[#norm:"); Plus (Cls (Not (ch "]"))); Lit (u "]#");
               Grp 1 (Plus (Cls (Not (ch "#")))); c "#"])
        false false.

(** [/<<[^>]+>>/g] *)
Definition xref_re : regex :=
  Regex (Seqs [Lit (u "<<"); Plus (Cls (Not (ch ">"))); Lit (u ">>")])
        false false.

(** [/\[\[[^\]]+\]\]/g] *)
Definition anchor_re : regex :=
  Regex (Seqs [Lit (u "[["); Plus (Cls (Not (ch "]"))); Lit (u "]]")])
        false false.

(** [/\*\*([^*]+)\*\*/g] *)
Definition bold_re : regex :=
  Regex (Seqs [Lit (u "**"); Grp 1 (Plus (Cls (Not (ch "*")))); Lit (u "**")])
        false false.

(** [/\*([^*]+)\*/g] *)
Definition star_re : regex :=
  Regex (Seqs [c "*"; Grp 1 (Plus (Cls (Not (ch "*")))); c "*"]) false false.

(** [/_([^_]+)_/g] *)
Definition emph_re : regex :=
  Regex (Seqs [c "_"; Grp 1 (Plus (Cls (Not (ch "_")))); c "_"]) false false.

(** [/`([^`]+)`/g] *)
Definition code_re : regex :=
  Regex (Seqs [c "`"; Grp 1 (Plus (Cls (Not (ch "`")))); c "`"]) false false.

(** [/footnote:\[[^\]]*\]/g] *)
Definition footnote_re : regex :=
  Regex (Seqs [Lit (u "footnote:["); Star (Cls (Not (ch "]"))); c "]"])
        false false.

(** [/^\[%[^\]]+\]\s*/gm] *)
Definition attr_re : regex :=
  Regex (Seqs [Bol; Lit (u "[%"); Plus (Cls (Not (ch "]"))); c "]"; Star space])
        false true.

(** [/^:.*$/gm] *)
Definition attrline_re : regex :=
  Regex (Seqs [Bol; c ":"; Star dot; Eol]) false true.

Definition cleanAdocText (text : str) : str :=
  let t1 := replace_g text norm_span_re dollar1 in
  let t2 := replace_g t1 xref_re (literally []) in
  let t3 := replace_g t2 anchor_re (literally []) in
  let t4 := replace_g t3 bold_re dollar1 in
  let t5 := replace_g t4 star_re dollar1 in
  let t6 := replace_g t5 emph_re dollar1 in
  let t7 := replace_g t6 code_re dollar1 in
  let t8 := replace_g t7 footnote_re (literally []) in
  let t9 := replace_g t8 attr_re (literally []) in
  let t10 := replace_g t9 attrline_re (literally []) in
  let t11 := replace_g t10 ws_re (literally (u " ")) in
  trim t11.

(** *** extractDescriptionsFromAdoc *)

(** The two description maps are JavaScript [Map]s used through [has], [get]
    and [set] only. *)
Definition has (m : gmap str str) (k : str) : bool := bool_decide (is_Some (m !! k)).

(** [/\[#norm:([a-z0-9_]+)_(?:op|desc|enc|behavior)[^\]]*\]#([^#]+)#/gi] *)
Definition norm_re : regex :=
  Regex (Seqs [Lit (u "[#norm:");
               Grp 1 (Plus (Cls (CRanges false
                                   [rng "a" "z"; rng "0" "9"; rng "_" "_"])));
               c "_";
               Alts [Lit (u "op"); Lit (u "desc"); Lit (u "enc");
                     Lit (u "behavior")];
               Star (Cls (Not (ch "]"))); Lit (u "]#");
               Grp 2 (Plus (Cls (Not (ch "#")))); c "#"])
        true false.

(** [/^(={2,4})\s+([A-Z][A-Z0-9.]+)\s*$/gm] *)
Definition section_re : regex :=
  Regex (Seqs [Bol; Grp 1 (Rep 2 (Some 4) (c "=")); Plus space;
               Grp 2 (Seq (Cls (CRanges false [rng "A" "Z"]))
                        (Plus (Cls (CRanges false
                                      [rng "A" "Z"; rng "0" "9"; rng "." "."]))));
               Star space; Eol])
        false true.

(** [new RegExp(`^={2,${headingLevel}}\\s+`, 'm')] *)
Definition nextHeadingRegex (headingLevel : nat) : regex :=
  Regex (Seqs [Bol; Rep 2 (Some headingLevel) (c "="); Plus space]) false true.

(** A verb with an optional final [s]. *)
Definition verb (s : string) : re := Seq (Lit (u s)) (Opt (c "s")).

(** The prose pattern, with flags [gi]: an optional sentence break
    [(?:^|\.\s+)], an optional [The], the mnemonic [[A-Z][A-Z0-9.]{0,}]
    (group 1) between optional backquotes, an optional [instruction], one of
    the verbs, and the rest of the sentence [([^.]+\.)] (group 2). *)
Definition prose_re : regex :=
  Regex (Seqs [Alt Bol (Seq (c ".") (Plus space));
               Opt (Seq (Lit (u "The")) (Plus space));
               Opt (c "`");
               Grp 1 (Seq (Cls (CRanges false [rng "A" "Z"]))
                        (Star (Cls (CRanges false
                                      [rng "A" "Z"; rng "0" "9"; rng "." "."]))));
               Opt (c "`");
               Plus space;
               Opt (Seq (Lit (u "instruction")) (Plus space));
               Alts [verb "perform"; Lit (u "is"); verb "compute"; verb "load";
                     verb "store"; verb "write"; verb "read"; verb "set";
                     verb "clear"; verb "add"; verb "subtract";
                     verb "multiplie"; verb "divide"; verb "shift";
                     verb "rotate"; verb "branche"; verb "jump"; verb "call";
                     verb "return"; Lit (u "atomically"); verb "sign-extend";
                     verb "zero-extend"];
               Grp 2 (Seq (Plus (Cls (Not (ch ".")))) (c "."))])
        true false.

(** The CSR heading pattern, with flags [gim]: [^(={2,4})\s+(?:The\s+)?], the
    register name [[a-z][a-z0-9_]{0,}] (group 2) between optional backquotes,
    then [\s+(?:Register|CSR)?\s*$]. *)
Definition csr_section_re : regex :=
  Regex (Seqs [Bol; Grp 1 (Rep 2 (Some 4) (c "=")); Plus space;
               Opt (Seq (Lit (u "The")) (Plus space));
               Opt (c "`");
               Grp 2 (Seq (Cls (CRanges false [rng "a" "z"]))
                        (Star (Cls (CRanges false
                                      [rng "a" "z"; rng "0" "9"; rng "_" "_"]))));
               Opt (c "`");
               Plus space;
               Opt (Alt (Lit (u "Register")) (Lit (u "CSR")));
               Star space; Eol])
        true true.

(** The inline CSR pattern, with flags [gi]: [(?:^|\.\s+)(?:The\s+)?], the
    register name (group 1) between backquotes, [\s+(?:CSR|register)\s+], one
    of [is|contains?|holds?|provides?|controls?], and [([^.]+\.)] (group 2). *)
Definition csr_prose_re : regex :=
  Regex (Seqs [Alt Bol (Seq (c ".") (Plus space));
               Opt (Seq (Lit (u "The")) (Plus space));
               c "`";
               Grp 1 (Seq (Cls (CRanges false [rng "a" "z"]))
                        (Star (Cls (CRanges false
                                      [rng "a" "z"; rng "0" "9"; rng "_" "_"]))));
               c "`";
               Plus space;
               Alt (Lit (u "CSR")) (Lit (u "register"));
               Plus space;
               Alts [Lit (u "is"); verb "contain"; verb "hold"; verb "provide";
                     verb "control"];
               Grp 2 (Seq (Plus (Cls (Not (ch ".")))) (c "."))])
        true false.

(** Pattern 1: one normative span whose anchor names an instruction. *)
Definition normStep (instrDescriptions : gmap str str) (m : rmatch_result)
  : gmap str str :=
  let instrName := toLowerCase (group m 1) in
  let desc := cleanAdocText (group m 2) in
  if (10 <? length desc)%nat then
    let existing := default [] (instrDescriptions !! instrName) in
    if negb (is_empty existing)
    then <[instrName := existing ++ u " " ++ desc]> instrDescriptions
    else <[instrName := desc]> instrDescriptions
  else instrDescriptions.

(** The body of the section under a heading match: up to the next heading of
    the same or a higher level, or [cap] code units when there is none.  The
    instruction scan and the CSR scan compute it the same way, with caps 2000
    and 1500. *)
Definition sectionBody (content : str) (m : rmatch_result) (cap : nat) : str :=
  let headingLevel := length (group m 1) in
  let startIdx := (m_index m + length (m_text m))%nat in
  let nextHeadingMatch :=
    search (sliceFrom content startIdx) (nextHeadingRegex headingLevel) in
  let endIdx := match nextHeadingMatch with
                | None => (startIdx + cap)%nat
                | Some i => (startIdx + i)%nat
                end in
  slice content startIdx endIdx.

(** The cleaned normative statements of a section. *)
Definition sectionNormTexts (section : str) : list str :=
  map (fun norm => cleanAdocText (group norm 1)) (matchAll section norm_span_re).

(** The loop over the paragraphs of a section stops at the first one whose
    cleaned text is long enough and looks like neither a table nor a block;
    the result is that cleaned text. *)
Fixpoint firstParagraph (paragraphs : list str) : option str :=
  match paragraphs with
  | [] => None
  | para :: rest =>
      let cleaned := cleanAdocText para in
      if (30 <? length cleaned)%nat && negb (includes cleaned (u "|"))
         && negb (startsWith (trim para) (u "["))
      then Some cleaned
      else firstParagraph rest
  end.

(** Pattern 2: one instruction heading. *)
Definition sectionStep (content : str) (instrDescriptions : gmap str str)
  (m : rmatch_result) : gmap str str :=
  let instrName := toLowerCase (group m 2) in
  let section := sectionBody content m 2000 in
  let normTexts := sectionNormTexts section in
  if (0 <? length normTexts)%nat then
    let combined := join (u " ") normTexts in
    if negb (has instrDescriptions instrName)
       || (length (default [] (instrDescriptions !! instrName)) <? length combined)%nat
    then <[instrName := combined]> instrDescriptions
    else instrDescriptions
  else
    match firstParagraph (split section [LF; LF]) with
    | Some cleaned =>
        if negb (has instrDescriptions instrName)
        then <[instrName := slice cleaned 0 500]> instrDescriptions
        else instrDescriptions
    | None => instrDescriptions
    end.

(** Pattern 3: one sentence that opens with a mnemonic and a verb. *)
Definition proseStep (instrDescriptions : gmap str str) (m : rmatch_result)
  : gmap str str :=
  let instrName := toLowerCase (group m 1) in
  let fullDesc := trim (group m 1 ++ u " " ++ group m 2) in
  let cleaned := cleanAdocText fullDesc in
  if (20 <? length cleaned)%nat && negb (has instrDescriptions instrName)
  then <[instrName := cleaned]> instrDescriptions
  else instrDescriptions.

(** Pattern 4: one CSR heading. *)
Definition csrSectionStep (content : str) (csrDescriptions : gmap str str)
  (m : rmatch_result) : gmap str str :=
  let csrName := toLowerCase (group m 2) in
  let section := sectionBody content m 1500 in
  let normTexts := sectionNormTexts section in
  if (0 <? length normTexts)%nat
  then <[csrName := join (u " ") normTexts]> csrDescriptions
  else
    match firstParagraph (split section [LF; LF]) with
    | Some cleaned => <[csrName := slice cleaned 0 500]> csrDescriptions
    | None => csrDescriptions
    end.

(** Pattern 5: one sentence about a backquoted register name. *)
Definition csrProseStep (csrDescriptions : gmap str str) (m : rmatch_result)
  : gmap str str :=
  let csrName := toLowerCase (group m 1) in
  let fullDesc := trim (u "The " ++ csrName ++ u " register " ++ group m 2) in
  let cleaned := cleanAdocText fullDesc in
  if (20 <? length cleaned)%nat && negb (has csrDescriptions csrName)
  then <[csrName := cleaned]> csrDescriptions
  else csrDescriptions.

(** The three instruction scans and the two CSR scans over one document. *)
Definition normPass (content : str) (instrDescriptions : gmap str str) :=
  fold_left normStep (matchAll content norm_re) instrDescriptions.

Definition sectionPass (content : str) (instrDescriptions : gmap str str) :=
  fold_left (sectionStep content) (matchAll content section_re) instrDescriptions.

Definition prosePass (content : str) (instrDescriptions : gmap str str) :=
  fold_left proseStep (matchAll content prose_re) instrDescriptions.

Definition csrSectionPass (content : str) (csrDescriptions : gmap str str) :=
  fold_left (csrSectionStep content) (matchAll content csr_section_re)
    csrDescriptions.

Definition csrProsePass (content : str) (csrDescriptions : gmap str str) :=
  fold_left csrProseStep (matchAll content csr_prose_re) csrDescriptions.

(** The body of the loop over the documents: the two maps after one more
    document. *)
Definition extractFile (maps : gmap str str * gmap str str) (content : str)
  : gmap str str * gmap str str :=
  let '(instrDescriptions, csrDescriptions) := maps in
  (prosePass content (sectionPass content (normPass content instrDescriptions)),
   csrProsePass content (csrSectionPass content csrDescriptions)).

(** [extractDescriptionsFromAdoc], over the contents of the documents that
    could be read, in the order they were found. *)
Definition extractDescriptionsFromAdoc (files : list str)
  : gmap str str * gmap str str :=
  fold_left extractFile files (∅, ∅).

(** *** main: merging and deduplication *)

Section Main.
(** [String.prototype.toLowerCase] on the name of a record. *)
Variable lower : str -> str.

(** [if (desc) instr.description = desc]: an absent or empty description
    leaves the record as it is. *)
Definition attachInstr (instrDescriptions : gmap str str) (instr : Instruction)
  : Instruction :=
  match instrDescriptions !! lower (i_name instr) with
  | Some ((_ :: _) as desc) =>
      mkInstruction (i_name instr) (i_extension instr) (i_operands instr)
        (i_encoding instr) desc (i_type instr)
  | _ => instr
  end.

Definition attachCSR (csrDescriptions : gmap str str) (csr : CSR) : CSR :=
  match csrDescriptions !! lower (c_name csr) with
  | Some ((_ :: _) as desc) => mkCSR (c_name csr) (c_address csr) (c_privilege csr) desc
  | _ => csr
  end.

(** [seenInstructions] is a [Map] whose iteration order is read back, so it is
    kept as the list of its entries in insertion order. *)
Definition seen_has (seen : list (str * Instruction)) (k : str) : bool :=
  existsb (fun e => str_eqb (fst e) k) seen.

Definition seenStep (seenInstructions : list (str * Instruction))
  (instr : Instruction) : list (str * Instruction) :=
  if negb (seen_has seenInstructions (i_name instr))
  then seenInstructions ++ [(i_name instr, instr)]
  else seenInstructions.

(** [Array.from(seenInstructions.values())] after the loop. *)
Definition dedupInstructions (instructions : list Instruction) : list Instruction :=
  map snd (fold_left seenStep instructions []).

Record Dataset := mkDataset {
  d_instructions : list Instruction;
  d_csrs : list CSR;
  d_version : str
}.

(** The dataset [main] writes, from what the parsers and the extractor
    returned; [generatedAt] is the clock's and is left out. *)
Definition assemble (instructions : list Instruction) (csrs : list CSR)
  (descriptions : gmap str str * gmap str str) : Dataset :=
  let '(instrDescriptions, csrDescriptions) := descriptions in
  let instructions' := map (attachInstr instrDescriptions) instructions in
  let csrs' := map (attachCSR csrDescriptions) csrs in
  mkDataset (dedupInstructions instructions') csrs' (u "1.0.0").

End Main.

End BuildData.

(** ** The specification's own vocabulary *)

Module Spec.
Import JS BuildData.

(** The privilege table of the interface section, in its order: the first and
    last address of each range ([None] for an open end) and its tier. *)
Definition privilege_table : list (N * option N * str) := [
  (0x100, Some 0x1FF, u "S");
  (0x200, Some 0x2FF, u "H");
  (0x300, Some 0x3FF, u "M");
  (0x500, Some 0x5FF, u "S");
  (0x600, Some 0x6FF, u "H");
  (0x700, Some 0x7FF, u "M");
  (0xB00, Some 0xBFF, u "M");
  (0xC00, Some 0xCFF, u "U");
  (0xF00, None, u "M")
]%N.

(** First matching range wins; "U" outside all of them. *)
Fixpoint table_lookup (t : list (N * option N * str)) (a : N) : str :=
  match t with
  | [] => u "U"
  | (lo, hi, p) :: t' =>
      if (lo <=? a)%N && match hi with Some h => (a <=? h)%N | None => true end
      then p
      else table_lookup t' a
  end.

(** The integer a string of digits denotes in a radix. *)
Definition digit_of (x : N) : N := default 0%N (digit_value x).

Definition numeral (radix : N) (ds : str) : N :=
  fold_left (fun acc x => (radix * acc + digit_of x)%N) ds 0%N.

Definition is_hex (x : N) : bool := is_radix_digit 16 x.

Definition is_dec (x : N) : bool := is_digit x.

Definition starts_with_digit (s : str) : bool :=
  match s with
  | x :: _ => is_digit x
  | [] => false
  end.

(** The visible ASCII characters. *)
Definition printable (x : N) : Prop := (33 <= x <= 126)%N.

(** A value literal and the integer it denotes: [0x] and hexadecimal digits,
    or decimal digits. *)
Inductive literal : str -> N -> Prop :=
| literal_hex ds :
    ds <> [] -> Forall (fun x => is_hex x = true) ds ->
    literal (u "0x" ++ ds) (numeral 16 ds)
| literal_dec ds :
    ds <> [] -> Forall (fun x => is_dec x = true) ds ->
    literal ds (numeral 10 ds).

(** The normative spans the first scan keeps for a name: the cleaned texts,
    longer than 10, of the matches whose anchor names it, in document order. *)
Definition kept_for (n : str) (m : rmatch_result) : Prop :=
  toLowerCase (group m 1) = n /\ 10 < length (cleanAdocText (group m 2)).

#[export] Instance kept_for_dec n m : Decision (kept_for n m).
Proof. unfold kept_for. apply _. Defined.

Definition norm_texts (n : str) (ms : list rmatch_result) : list str :=
  map (fun m => cleanAdocText (group m 2)) (filter (kept_for n) ms).

(** What a run of kept spans makes of an entry: appended after a space to an
    entry that is not empty, stored as they are otherwise. *)
Definition accumulate (existing : option str) (texts : list str) : option str :=
  fold_left (fun acc t =>
               match acc with
               | Some ((_ :: _) as e) => Some (e ++ u " " ++ t)
               | _ => Some t
               end) texts existing.

(** The characters the markup patterns of the cleaner start from: the
    brackets of anchors and cross-references, the emphasis marks, the
    backquote, and the colon of footnotes and attribute lines. *)
Definition is_markup (x : N) : bool :=
  existsb (N.eqb x) [ch "["; ch "<"; ch "*"; ch "_"; ch "`"; ch ":"].

(** White space collapsed by one pass over the text: every run of white
    space becomes one space.  [inrun] tells that the previous character was
    white space. *)
Fixpoint collapse_ws (inrun : bool) (s : str) : str :=
  match s with
  | [] => []
  | x :: s' =>
      if is_space x
      then if inrun then collapse_ws true s' else 32%N :: collapse_ws true s'
      else x :: collapse_ws false s'
  end.

(** Text that does not begin with white space. *)
Definition head_not_space (s : str) : Prop :=
  match s with [] => True | x :: _ => is_space x = false end.

(** Text in which white space occurs only as single spaces.  [after_space]
    tells that the text follows a space. *)
Fixpoint single_spaced (after_space : bool) (s : str) : bool :=
  match s with
  | [] => true
  | x :: s' =>
      if is_space x
      then (x =? 32)%N && negb after_space && single_spaced true s'
      else single_spaced false s'
  end.

(** The characters of an instruction mnemonic: letters, digits, [_] and
    [.]. *)
Definition is_name_char (x : N) : bool := is_word x || (x =? 46)%N.

(** The four privilege tiers. *)
Definition tiers : list str := [u "U"; u "S"; u "H"; u "M"].

(** A bit field as the grammar reads it: bounds that are numbers read from
    digits, so neither NaN nor negative, and a value that is a number. *)
Definition well_read (bf : BitField) : Prop :=
  (exists h l, bf_high bf = number_of_N false h /\ bf_low bf = number_of_N false l)
  /\ exists v, bf_value bf = VNumber v.

(** One description map after another: no key is lost, and every key that
    is new is in lower case. *)
Definition extends (d d' : gmap str str) : Prop :=
  forall k, (is_Some (d !! k) -> is_Some (d' !! k))
            /\ (is_Some (d' !! k) -> is_Some (d !! k) \/ toLowerCase k = k).

(** One description map after another: no entry has become shorter. *)
Definition never_shorter (d d' : gmap str str) : Prop :=
  forall k e, d !! k = Some e ->
              exists e', d' !! k = Some e' /\ length e <= length e'.

(** The pieces between the runs of white space of a text, read in one pass;
    [cur] is the piece being read, reversed, and [inrun] tells that the
    previous character was white space. *)
Fixpoint ws_pieces (inrun : bool) (cur : str) (s : str) : list str :=
  match s with
  | [] => [rev cur]
  | x :: s' =>
      if is_space x
      then if inrun then ws_pieces true cur s' else rev cur :: ws_pieces true [] s'
      else ws_pieces false (x :: cur) s'
  end.

(** A token: not empty and without white space. *)
Definition token (p : str) : Prop :=
  p <> [] /\ Forall (fun x => is_space x = false) p.

(** The gap between a token and the stretch of the line beside it: white
    space, and empty only when that stretch is. *)
Definition gap (beside w : str) : Prop :=
  Forall (fun x => is_space x = true) w /\ (w = [] -> beside = []).


(** The markup patterns of the cleaner, in the order it applies them, and
    text in which none of them finds a match. *)
Definition markup_patterns : list regex :=
  [norm_span_re; xref_re; anchor_re; bold_re; star_re; emph_re; code_re;
   footnote_re; attr_re; attrline_re].

Definition unmarked (t : str) : Prop :=
  Forall (fun rx => search t rx = None) markup_patterns.

(** The markup steps of the cleaner, in order: each pattern with what its
    matches give way to. *)
Definition markup_steps : list (regex * (rmatch_result -> str)) :=
  [(norm_span_re, dollar1); (xref_re, literally []); (anchor_re, literally []);
   (bold_re, dollar1); (star_re, dollar1); (emph_re, dollar1);
   (code_re, dollar1); (footnote_re, literally []); (attr_re, literally []);
   (attrline_re, literally [])].

Definition run_steps (steps : list (regex * (rmatch_result -> str))) (s : str)
  : str :=
  fold_left (fun t step => replace_g t (fst step) (snd step)) steps s.

(** A step whose every match gives way to shorter text. *)
Definition shortening (step : regex * (rmatch_result -> str)) : Prop :=
  forall prev pos rest m,
    search_at (fst step) prev pos rest = Some m ->
    length (snd step m) < length (m_text m).


(** The first record with a given name. *)
Definition first_named (n : str) (l : list Instruction) : option Instruction :=
  find (fun i => bool_decide (i_name i = n)) l.

(** The records kept by first-occurrence-wins, given the names already taken. *)
Fixpoint firsts (taken : list str) (l : list Instruction) : list Instruction :=
  match l with
  | [] => []
  | x :: l' =>
      if bool_decide (i_name x ∈ taken) then firsts taken l'
      else x :: firsts (i_name x :: taken) l'
  end.

End Spec.

(** ** Sample inputs *)

Module Samples.
Import JS BuildData.

(** Scenario A of the specification: the definition line of [add]. *)
Definition add_line : str :=
  u "add 31..25=0 24..20=rs2 19..15=rs1 14..12=0 11..7=rd 6..0=0x33".

(** A bit field with a fixed value: a number that is not NaN. *)
Definition is_fixed (bf : BitField) : bool :=
  match bf_value bf with
  | VNumber (Num _ _) => true
  | _ => false
  end.

(** Two documents about one register: a heading with a normative statement
    in the first, a heading with plain prose in the second. *)
Definition mstatus_normative : str :=
  u "== mstatus Register" ++ [LF; LF] ++
  u "[#norm:mstatus_desc]#The mstatus register tracks the operating state.#" ++
  [LF].

(** Scenario D of the specification, and a document that has both a
    normative span for [add] and an [ADD] section with plain prose. *)
Definition add_normative : str :=
  u "[#norm:add_op]#ADD performs integer addition.#".


Definition add_both : str :=
  u "[#norm:add_op]#ADD performs integer addition of its two source registers.#"
  ++ [LF; LF] ++ u "== ADD" ++ [LF; LF] ++
  u "The add instruction is commonly used." ++ [LF].

Definition mstatus_prose : str :=
  u "== mstatus" ++ [LF; LF] ++
  u "The mstatus register keeps track of the hart state." ++ [LF].

(** An [ADD] section with plain prose and nothing else; the span of scenario
    D twice in one document; and a document whose [ADD] section holds a
    normative statement about another instruction. *)
Definition add_section : str :=
  u "== ADD" ++ [LF; LF] ++ u "The add instruction is commonly used." ++ [LF].




(** A case conversion that also lowers the Kelvin sign, U+212A, to [k]. *)
Definition lower_kelvin (s : str) : str :=
  map (fun c => if is_upper c then (c + 32)%N
                else if (c =? 0x212A)%N then ch "k" else c) s.

(** A sentence with emphasis, untidy white space, and brackets, a colon, an
    underscore and an angle bracket that are no markup. *)
Definition bits_sentence : str :=
  u "  Bits *x[31:0]* of rs1_p are  written: see <mstatus>. ".

End Samples.

(** ** Properties *)

Import JS BuildData Spec Samples.

(** Evaluate the list a [Forall] ranges over, leaving the predicate alone. *)
Ltac compute_list :=
  match goal with
  | |- Forall ?P ?l => let l' := eval vm_compute in l in change (Forall P l')
  end.

(** *** Loops that only append *)

Lemma fold_left_emit {A B} (step : list A -> B -> list A) (emit : B -> list A) :
  (forall acc x, step acc x = acc ++ emit x) ->
  forall l acc, fold_left step l acc = acc ++ concat (map emit l).
Proof.
  intros Hstep l. induction l as [|x l IH]; intros acc; simpl.
  - by rewrite app_nil_r.
  - rewrite IH, Hstep. by rewrite <- app_assoc.
Qed.

Lemma opcodeLine_emit extension acc line :
  opcodeLine extension acc line = acc ++ opcodeLine extension [] line.
Proof.
  unfold opcodeLine.
  repeat match goal with
         | |- context [if ?b then _ else _] => destruct b
         | |- context [match ?o with Some _ => _ | None => _ end] => destruct o
         | |- context [let '(_, _) := ?p in _] => destruct p
         end; simpl; try done; by rewrite ?app_nil_r.
Qed.

Lemma parseOpcodeFile_lines content extension :
  parseOpcodeFile content extension =
  concat (map (opcodeLine extension []) (split content [LF])).
Proof.
  unfold parseOpcodeFile.
  rewrite (fold_left_emit _ (opcodeLine extension [])); [done|].
  intros. apply opcodeLine_emit.
Qed.

Lemma csvLine_emit acc line : csvLine acc line = acc ++ csvLine [] line.
Proof.
  unfold csvLine.
  repeat match goal with
         | |- context [if ?b then _ else _] => destruct b
         | |- context [match ?o with Some _ => _ | None => _ end] => destruct o
         end; simpl; try done; by rewrite ?app_nil_r.
Qed.

Lemma parseCSVFile_lines content :
  parseCSVFile content = concat (map (csvLine []) (split content [LF])).
Proof.
  unfold parseCSVFile.
  rewrite (fold_left_emit _ (csvLine [])); [done|].
  intros. apply csvLine_emit.
Qed.

Lemma startsWith_nil s : startsWith s [] = true.
Proof. by destruct s. Qed.

Lemma startsWith_cons s x p :
  startsWith s (x :: p) = true -> exists s', s = x :: s' /\ startsWith s' p = true.
Proof.
  destruct s as [|y s]; simpl; [done|].
  intros [Hx Hp]%andb_true_iff. apply N.eqb_eq in Hx. subst. eauto.
Qed.

(** *** The opcode parser's threshold *)

Lemma opcodeLine_instruction_has_fields extension line instr :
  instr ∈ opcodeLine extension [] line ->
  i_type instr = TInstruction -> i_encoding instr <> [].
Proof.
  unfold opcodeLine.
  repeat match goal with
         | |- context [if ?b then _ else _] => destruct b eqn:?
         | |- context [match ?o with Some _ => _ | None => _ end] => destruct o
         | |- context [let '(_, _) := ?p in _] => destruct p
         end; simpl; intros Hin Hty;
    try (by apply elem_of_nil in Hin);
    apply list_elem_of_singleton in Hin; subst; simpl in *; try done.
  intros ->. done.
Qed.

(** C3. A line that is not a [$pseudo_op] directive and whose remainder parses
    to no bit field leaves the list of instructions as it was; and every
    record of type [instruction] that the opcode parser returns holds at least
    one bit field. *)
Theorem C3_instruction_needs_a_bit_field :
  (forall extension instructions line,
      startsWith (trim line) (u "$pseudo_op") = false ->
      (parseEncodingLine
         (join (u " ") (drop 1 (split_re (trim line) ws_re)))).2 = [] ->
      opcodeLine extension instructions line = instructions)
  /\ (forall content extension instr,
      instr ∈ parseOpcodeFile content extension ->
      i_type instr = TInstruction -> i_encoding instr <> []).
Proof.
  split.
  - intros extension instructions line Hps Henc. unfold opcodeLine.
    rewrite Hps.
    repeat match goal with
           | |- context [if ?b then _ else _] => destruct b eqn:?
           end; try done.
    destruct (parseEncodingLine _) as [operands encoding]. simpl in *. by subst.
  - intros content extension instr Hin.
    rewrite parseOpcodeFile_lines in Hin.
    apply list_elem_of_In, in_concat in Hin as (l & Hl & Hin).
    apply in_map_iff in Hl as (line & <- & _).
    apply list_elem_of_In in Hin.
    by apply opcodeLine_instruction_has_fields with extension line.
Qed.

Lemma C3_witness :
  opcodeLine (u "rv_i") [] (u "fence.tso rd rs1") = []
  /\ i_encoding (mkInstruction (u "add") (u "rv_i") [u "rd"]
                   [mkBitField (Int 6) (Int 2) (VNumber (Int 12))] []
                   TInstruction) <> [].
Proof.
  destruct C3_instruction_needs_a_bit_field as [Hline Hfile]. split.
  - apply Hline; reflexivity.
  - apply (Hfile (u "add rd 6..2=0x0C") (u "rv_i")); [|reflexivity].
    vm_compute. apply list_elem_of_here.
Defined.

(** *** Pseudo-op directives *)

(** C9. A [$pseudo_op] line on which the directive pattern matches adds a
    record of type [pseudo], built from the captured name and from whatever
    the rest of the line parses to; a directive whose rest holds no bit field
    is recorded with an empty encoding, where the same text as a plain
    definition line is dropped. *)
Theorem C9_pseudo_op_without_fields :
  (forall extension instructions line m,
      startsWith (trim line) (u "$pseudo_op") = true ->
      exec pseudo_re (trim line) = Some m ->
      opcodeLine extension instructions line =
      instructions ++
      [mkInstruction (group m 1) extension
         (parseEncodingLine (group m 2)).1 (parseEncodingLine (group m 2)).2
         [] TPseudo])
  /\ parseOpcodeFile (u "$pseudo_op rv_zicsr::csrrs frflags rd") (u "rv_f") =
     [mkInstruction (u "frflags") (u "rv_f") [u "rd"] [] [] TPseudo]
  /\ parseOpcodeFile (u "frflags rd") (u "rv_f") = [].
Proof.
  split; [|split; reflexivity].
  intros extension instructions line m Hps Hm. unfold opcodeLine.
  rewrite Hps, Hm.
  apply startsWith_cons in Hps as (s' & -> & _). simpl.
  by destruct (parseEncodingLine (group m 2)).
Qed.

Lemma C9_witness :
  opcodeLine (u "rv_f") [] (u "  $pseudo_op rv_zicsr::csrrs frflags rd") =
  [mkInstruction (u "frflags") (u "rv_f") [u "rd"] [] [] TPseudo].
Proof.
  destruct C9_pseudo_op_without_fields as [Hline _].
  destruct (exec pseudo_re (trim (u "  $pseudo_op rv_zicsr::csrrs frflags rd")))
    as [m|] eqn:Hm; [|discriminate Hm].
  rewrite (Hline (u "rv_f") [] _ m); [|reflexivity|exact Hm].
  injection Hm as <-. reflexivity.
Defined.

(** *** The normative-anchor scan *)

Lemma fold_left_cons {A B} (step : A -> B -> A) (x : B) (l : list B) (a : A) :
  fold_left step (x :: l) a = fold_left step l (step a x).
Proof. reflexivity. Qed.

Lemma fold_left_id {A B} (step : A -> B -> A) (l : list B) (a : A) :
  Forall (fun x => forall a, step a x = a) l -> fold_left step l a = a.
Proof.
  intros H. revert a. induction H as [|x l Hx _ IH]; intros a; simpl; [done|].
  by rewrite Hx.
Qed.

(** C10. A normative span whose cleaned text has at most 10 code units leaves
    the instruction map as it was; one with more is stored under its
    lower-cased name, after the entry already there and a space when that
    entry is not empty.  Ten code units are dropped, eleven are kept. *)
Theorem C10_normative_span_threshold :
  (forall instrDescriptions m,
      length (cleanAdocText (group m 2)) <= 10 ->
      normStep instrDescriptions m = instrDescriptions)
  /\ (forall instrDescriptions m,
      10 < length (cleanAdocText (group m 2)) ->
      normStep instrDescriptions m !! toLowerCase (group m 1) =
      Some match instrDescriptions !! toLowerCase (group m 1) with
           | Some ((_ :: _) as existing) =>
               existing ++ u " " ++ cleanAdocText (group m 2)
           | _ => cleanAdocText (group m 2)
           end)
  /\ (forall content instrDescriptions,
      Forall (fun m => length (cleanAdocText (group m 2)) <= 10)
        (matchAll content norm_re) ->
      normPass content instrDescriptions = instrDescriptions)
  /\ normPass (u "[#norm:add_op]#0123456789#") ∅ !! u "add" = None
  /\ normPass (u "[#norm:add_op]#0123456789a#") ∅ !! u "add" =
     Some (u "0123456789a").
Proof.
  split; [|split; [|split; [|split; reflexivity]]].
  - intros instrDescriptions m Hlen. unfold normStep.
    destruct (10 <? _)%nat eqn:Hlt; [|done].
    apply Nat.ltb_lt in Hlt. lia.
  - intros instrDescriptions m Hlen. unfold normStep.
    apply Nat.ltb_lt in Hlen. rewrite Hlen.
    destruct (instrDescriptions !! toLowerCase (group m 1)) as [[|x existing]|];
      simpl; by rewrite lookup_insert_eq.
  - intros content instrDescriptions Hall. unfold normPass.
    apply fold_left_id. eapply Forall_impl; [exact Hall|].
    intros m Hlen a. simpl in Hlen. unfold normStep.
    destruct (10 <? _)%nat eqn:Hlt; [|done].
    apply Nat.ltb_lt in Hlt. lia.
Qed.

Lemma C10_witness :
  normPass (u "See [#norm:add_op]#Adds.# and [#norm:sub_desc]#Subtracts#.")
    {[ u "add" := u "kept" ]} = {[ u "add" := u "kept" ]}
  /\ normStep ∅ (MResult 0 [] [(1, u "ADD"); (2, u "performs addition")]
                   (MState None [] [])) !! u "add" =
     Some (u "performs addition").
Proof.
  destruct C10_normative_span_threshold as (Hdrop & Hkeep & Hpass & _). split.
  - apply Hpass. compute_list.
    repeat (constructor; [vm_compute; lia|]). constructor.
  - pose proof (Hkeep ∅ (MResult 0 [] [(1, u "ADD"); (2, u "performs addition")]
                           (MState None [] []))) as H.
    vm_compute in H. vm_compute. apply H. lia.
Defined.

(** *** Deduplication *)

Lemma seen_has_spec seen k : seen_has seen k = bool_decide (k ∈ map fst seen).
Proof.
  unfold seen_has. induction seen as [|e seen IH]; simpl; [done|].
  rewrite IH. unfold str_eqb.
  repeat case_bool_decide; simpl; try done; set_solver.
Qed.

Lemma firsts_ext l : forall t1 t2,
  (forall k, k ∈ t1 <-> k ∈ t2) -> firsts t1 l = firsts t2 l.
Proof.
  induction l as [|x l IH]; intros t1 t2 Heq; simpl; [done|].
  repeat case_bool_decide; try (exfalso; naive_solver).
  - by apply IH.
  - f_equal. apply IH. intros k. rewrite !elem_of_cons. naive_solver.
Qed.

Lemma seen_fold l : forall seen,
  map snd (fold_left seenStep l seen) = map snd seen ++ firsts (map fst seen) l.
Proof.
  induction l as [|x l IH]; intros seen; simpl.
  - by rewrite app_nil_r.
  - rewrite IH. unfold seenStep. rewrite seen_has_spec.
    case_bool_decide; simpl; [done|].
    rewrite !map_app, <- app_assoc. simpl. do 2 f_equal.
    apply firsts_ext. intros k. rewrite elem_of_app, !elem_of_cons, elem_of_nil.
    tauto.
Qed.

Lemma dedupInstructions_firsts l : dedupInstructions l = firsts [] l.
Proof. unfold dedupInstructions. by rewrite seen_fold. Qed.

Lemma firsts_fresh l : forall taken x, x ∈ firsts taken l -> i_name x ∉ taken.
Proof.
  induction l as [|y l IH]; intros taken x; simpl; [by intros ?%elem_of_nil|].
  case_bool_decide as Hy; [by apply IH|].
  intros [->|Hin]%elem_of_cons; [done|].
  apply IH in Hin. set_solver.
Qed.

Lemma firsts_NoDup l : forall taken, NoDup (map i_name (firsts taken l)).
Proof.
  induction l as [|y l IH]; intros taken; simpl; [constructor|].
  case_bool_decide as Hy; [by apply IH|].
  simpl. constructor; [|by apply IH].
  intros (x & Hx & Hin)%list_elem_of_fmap.
  apply firsts_fresh in Hin. rewrite <- Hx in Hin. set_solver.
Qed.

Lemma filter_none {A} (P : A -> Prop) `{forall x, Decision (P x)} (l : list A) :
  (forall x, x ∈ l -> ~ P x) -> filter P l = [].
Proof.
  induction l as [|y l IH]; intros Hl; [done|].
  rewrite filter_cons_False by (apply Hl; left).
  apply IH. intros x Hx. apply Hl. by right.
Qed.

Lemma firsts_filter_none n l : forall taken,
  n ∈ taken -> filter (fun i => i_name i = n) (firsts taken l) = [].
Proof.
  intros taken Hn. apply filter_none.
  intros x Hin%firsts_fresh Hx. by subst.
Qed.

Lemma firsts_filter n x l : forall taken,
  first_named n l = Some x -> n ∉ taken ->
  filter (fun i => i_name i = n) (firsts taken l) = [x].
Proof.
  unfold first_named.
  induction l as [|y l IH]; intros taken; simpl; [done|].
  case_bool_decide as Hy.
  - intros [= ->] Hn. rewrite bool_decide_eq_false_2 by by rewrite Hy.
    rewrite filter_cons_True by done.
    rewrite firsts_filter_none; [done|]. rewrite Hy. set_solver.
  - intros Hfind Hn. case_bool_decide as Ht; [by apply IH|].
    rewrite filter_cons_False by done. apply IH; [done|]. set_solver.
Qed.

Lemma attachInstr_name lower d x : i_name (attachInstr lower d x) = i_name x.
Proof. unfold attachInstr. by repeat case_match. Qed.

Lemma first_named_attach lower d n l :
  first_named n (map (attachInstr lower d) l) =
  attachInstr lower d <$> first_named n l.
Proof.
  unfold first_named. induction l as [|y l IH]; simpl; [done|].
  rewrite attachInstr_name. by case_bool_decide.
Qed.

(** C8. In the dataset that [main] assembles, no two instructions share a
    name, and for every name borne by some parsed instruction the dataset
    holds exactly one record of that name: the first such record of the input,
    with its description attached. *)
Theorem C8_first_occurrence_wins lower instructions csrs descriptions :
  let final := d_instructions (assemble lower instructions csrs descriptions) in
  NoDup (map i_name final)
  /\ forall n x,
      first_named n instructions = Some x ->
      filter (fun i => i_name i = n) final = [attachInstr lower descriptions.1 x].
Proof.
  destruct descriptions as [instrDescriptions csrDescriptions]. simpl.
  rewrite dedupInstructions_firsts. split; [apply firsts_NoDup|].
  intros n x Hfirst. apply firsts_filter; [|set_solver].
  by rewrite first_named_attach, Hfirst.
Qed.

Lemma C8_witness :
  filter (fun i => i_name i = u "add")
    (d_instructions
       (assemble toLowerCase
          [mkInstruction (u "add") (u "rv_i") [u "rd"] [] [] TInstruction;
           mkInstruction (u "sub") (u "rv_i") [u "rd"] [] [] TInstruction;
           mkInstruction (u "add") (u "unratified/rv_x") [] [] [] TPseudo]
          [] (∅, ∅))) =
  [attachInstr toLowerCase ∅
     (mkInstruction (u "add") (u "rv_i") [u "rd"] [] [] TInstruction)].
Proof.
  apply (C8_first_occurrence_wins toLowerCase
           [mkInstruction (u "add") (u "rv_i") [u "rd"] [] [] TInstruction;
            mkInstruction (u "sub") (u "rv_i") [u "rd"] [] [] TInstruction;
            mkInstruction (u "add") (u "unratified/rv_x") [] [] [] TPseudo]
           [] (∅, ∅)).
  reflexivity.
Defined.

(** *** Scenario A: the definition line of [add] *)

(** C1, as the specification states it, fails: the line does not parse to an
    instruction with operands [rs2], [rs1], [rd] and four fixed fields. *)
Lemma C1_scenario_A_as_stated_fails :
  ~ exists instr,
      parseOpcodeFile add_line (u "rv_i") = [instr]
      /\ i_operands instr = [u "rs2"; u "rs1"; u "rd"]
      /\ length (filter (fun bf => is_fixed bf = true) (i_encoding instr)) = 4.
Proof.
  intros (instr & Hparse & Hops & _).
  vm_compute in Hparse. injection Hparse as <-. discriminate Hops.
Qed.

(** C1, amended. The line yields exactly one instruction, [add]; its operand
    list is empty, because [rs2], [rs1] and [rd] occur only as the value of a
    bit-range token and never as a token of their own; each of the six tokens
    yields a bit field, in order, of which three carry a number (0, 0 and
    0x33) and three carry NaN.  A token that is a known operand name yields
    that operand and no bit field. *)
Theorem C1_scenario_A :
  parseOpcodeFile add_line (u "rv_i") =
  [mkInstruction (u "add") (u "rv_i") []
     [mkBitField (Int 31) (Int 25) (VNumber (Int 0));
      mkBitField (Int 24) (Int 20) (VNumber NaN);
      mkBitField (Int 19) (Int 15) (VNumber NaN);
      mkBitField (Int 14) (Int 12) (VNumber (Int 0));
      mkBitField (Int 11) (Int 7) (VNumber NaN);
      mkBitField (Int 6) (Int 0) (VNumber (Int 0x33))]
     [] TInstruction]
  /\ Forall (fun op => parseEncodingLine op = ([op], [])) KNOWN_OPERANDS_list.
Proof.
  split; [reflexivity|].
  unfold KNOWN_OPERANDS_list.
  repeat (constructor; [vm_compute; reflexivity|]). constructor.
Qed.

(** *** The CSR section-heading scan *)

(** C5. The first-paragraph fallback of the CSR heading scan is not guarded.
    After a first document has given [mstatus] a normative description, the
    [mstatus] heading of a second document, whose section holds no normative
    span, replaces that description with its first paragraph, where the
    specification has the fallback write only when there is no entry.  The
    instruction heading scan, the same steps with the guard, keeps the entry
    of [add] on two such documents. *)
Theorem C5_fallback_overwrites :
  (extractDescriptionsFromAdoc [mstatus_normative]).2 !! u "mstatus" =
    Some (u "The mstatus register tracks the operating state.")
  /\ Forall (fun m => toLowerCase (group m 2) = u "mstatus"
                      /\ sectionNormTexts (sectionBody mstatus_prose m 1500) = [])
       (matchAll mstatus_prose csr_section_re)
  /\ (extractDescriptionsFromAdoc [mstatus_normative; mstatus_prose]).2
       !! u "mstatus" =
     Some (u "The mstatus register keeps track of the hart state.")
  /\ (extractDescriptionsFromAdoc [add_normative; add_section]).1 !! u "add" =
     Some (u "ADD performs integer addition.").
Proof.
  split; [reflexivity|split; [|split; reflexivity]].
  compute_list. repeat (constructor; [split; reflexivity|]). constructor.
Qed.

(** *** The matcher *)

Section MatcherFacts.
Variables (icase multiline : bool).

Abbreviation rmatch := (rmatch icase multiline).
Abbreviation matches := (matches icase multiline).

Lemma rmatch_Rep lo hi body st k :
  rmatch (Rep lo hi body) st k =
  rep_loop (rmatch body) k (S (lo + length (ms_rest st))) lo hi st.
Proof. reflexivity. Qed.

Lemma rep_loop_sound body r k :
  (forall st k res, body st k = Some res ->
                    exists st', matches r st st' /\ k st' = Some res) ->
  forall fuel lo hi st res,
    rep_loop body k fuel lo hi st = Some res ->
    exists st', matches (Rep lo hi r) st st' /\ k st' = Some res.
Proof.
  intros Hbody. induction fuel as [|fuel IH]; intros lo hi st res; simpl.
  - destruct lo; [|done]. intros Hk. exists st. split; [constructor|done].
  - destruct (hi_more hi) eqn:Hhi.
    + destruct (body st _) as [res0|] eqn:Hb.
      * intros [= ->]. apply Hbody in Hb as (st1 & Hm1 & Hk1).
        destruct (_ || _); [|done].
        apply IH in Hk1 as (st2 & Hm2 & Hk2).
        exists st2. split; [|done]. by eapply M_rep_more.
      * destruct lo; [|done]. intros Hk. exists st. split; [constructor|done].
    + destruct lo; [|done]. intros Hk. exists st. split; [constructor|done].
Qed.

(** Whatever the matcher returns was reached through a state the pattern
    leads to. *)
Lemma rmatch_sound r : forall st k res,
  rmatch r st k = Some res ->
  exists st', matches r st st' /\ k st' = Some res.
Proof.
  induction r as [|c|cl|a IHa b IHb|a IHa b IHb|lo hi r IH|i r IH| |];
    intros st k res; [simpl..|rewrite rmatch_Rep|simpl|simpl|simpl].
  - intros Hk. exists st. split; [constructor|done].
  - destruct (ms_rest st) as [|x rest] eqn:Hrest; [done|].
    destruct (chr_match icase c x) eqn:Hc; [|done].
    intros Hk. eexists. split; [by econstructor|done].
  - destruct (ms_rest st) as [|x rest] eqn:Hrest; [done|].
    destruct (cls_match icase cl x) eqn:Hc; [|done].
    intros Hk. eexists. split; [by econstructor|done].
  - intros (st1 & H1 & (st2 & H2 & Hk)%IHb)%IHa.
    exists st2. split; [by econstructor|done].
  - destruct (rmatch a st k) eqn:Ha.
    + intros [= ->]. apply IHa in Ha as (st' & H & Hk).
      exists st'. split; [by apply M_alt_l|done].
    + intros (st' & H & Hk)%IHb. exists st'. split; [by apply M_alt_r|done].
  - apply rep_loop_sound. exact IH.
  - intros (st' & H & Hk)%IH. eexists. split; [by econstructor|done].
  - destruct (at_bol multiline st) eqn:Hb; [|done].
    intros Hk. exists st. split; [by constructor|done].
  - destruct (at_eol multiline st) eqn:Hb; [|done].
    intros Hk. exists st. split; [by constructor|done].
Qed.

(** A run only moves forward through the input. *)
Lemma matches_suffix r st st' :
  matches r st st' -> exists w, ms_rest st = w ++ ms_rest st'.
Proof.
  induction 1 as [st|c x rest st Hr _|cl x rest st Hr _
                  |a b st1 st2 st3 _ [w1 IH1] _ [w2 IH2]
                  |a b st st' _ IH|a b st st' _ IH
                  |hi body st
                  |lo hi body st1 st2 st3 _ _ [w1 IH1] _ [w2 IH2]
                  |i body st st' _ [w IH]|st _|st _];
    try (by exists []); try done.
  - exists [x]. by rewrite Hr.
  - exists [x]. by rewrite Hr.
  - exists (w1 ++ w2). by rewrite IH1, IH2, app_assoc.
  - exists (w1 ++ w2). by rewrite IH1, IH2, app_assoc.
  - by exists w.
Qed.

Lemma consumed_spec st st' w :
  ms_rest st = w ++ ms_rest st' -> consumed st st' = w.
Proof.
  intros H. unfold consumed. rewrite H, length_app.
  replace (length w + length (ms_rest st') - length (ms_rest st'))
    with (length w) by lia.
  by rewrite take_app_length.
Qed.

(** The greedy quantifier over a class takes a run of the class; a run of
    other patterns may hide in [hi], so the statement is for any bound. *)
Lemma matches_rep_cls lo hi cl st st' :
  matches (Rep lo hi (Cls cl)) st st' ->
  exists w, ms_rest st = w ++ ms_rest st'
            /\ Forall (fun x => cls_match icase cl x = true) w
            /\ lo <= length w
            /\ ms_caps st' = ms_caps st
            /\ ms_prev st' = ms_skip_prev (ms_prev st) w.
Proof.
  remember (Rep lo hi (Cls cl)) as r eqn:Hr. intros H. revert lo hi Hr.
  induction H as [| | | | | |hi' body st
                  |lo' hi' body st1 st2 st3 Hhi Hb _ _ IH| | |];
    intros lo hi Hr; try discriminate Hr.
  - injection Hr as <- <- ->. exists []. repeat split; auto.
  - injection Hr as <- <- ->.
    destruct (IH _ _ eq_refl) as (w & Hw & Hall & Hlo & Hcaps & Hprev).
    inversion Hb as [| |cl' x rest st Hrest Hx| | | | | | | |]; subst.
    exists (x :: w). simpl in *. rewrite Hrest, Hw.
    repeat split; auto. lia.
Qed.

(** Priorities: over a class, with no upper bound, the quantifier first
    offers the continuation the whole run of the class. *)
Lemma rep_loop_S body k fuel lo hi st :
  rep_loop body k (S fuel) lo hi st =
  let stop := match lo with O => k st | S _ => None end in
  if hi_more hi then
    match
      body st (fun st' =>
        if (0 <? lo)%nat || (length (ms_rest st') <? length (ms_rest st))%nat
        then rep_loop body k fuel (pred lo) (hi_pred hi) st'
        else None)
    with
    | Some res => Some res
    | None => stop
    end
  else stop.
Proof. reflexivity. Qed.

Lemma rmatch_Cls cl st k :
  rmatch (Cls cl) st k =
  match ms_rest st with
  | x :: rest => if cls_match icase cl x then k (ms_step st x rest) else None
  | [] => None
  end.
Proof. reflexivity. Qed.

Lemma rep_loop_cls_greedy cl k res w : forall fuel lo st tail,
  ms_rest st = w ++ tail ->
  Forall (fun x => cls_match icase cl x = true) w ->
  match tail with [] => True | x :: _ => cls_match icase cl x = false end ->
  lo <= length w -> length w < fuel ->
  k (ms_skip st w tail) = Some res ->
  rep_loop (rmatch (Cls cl)) k fuel lo None st = Some res.
Proof.
  induction w as [|x w IH]; intros fuel lo st tail Hrest Hall Htail Hlo Hfuel Hk.
  - destruct fuel as [|fuel]; [simpl in Hfuel; lia|].
    assert (lo = 0) as -> by (simpl in Hlo; lia).
    assert (ms_skip st [] tail = st) as Hst
        by (destruct st; simpl in *; by subst).
    rewrite Hst in Hk. rewrite rep_loop_S, rmatch_Cls. simpl in Hrest.
    rewrite Hrest. simpl.
    destruct tail as [|y tail]; [done|]. by rewrite Htail.
  - destruct fuel as [|fuel]; [simpl in Hfuel; lia|].
    apply Forall_cons in Hall as [Hx Hall].
    rewrite rep_loop_S, rmatch_Cls. simpl in Hrest. rewrite Hrest, Hx.
    cbn [hi_more hi_pred ms_rest ms_step].
    replace (length (w ++ tail) <? length (x :: w ++ tail))%nat
      with true by (symmetry; apply Nat.ltb_lt; simpl; lia).
    rewrite orb_true_r.
    erewrite IH; [done|reflexivity|done|done|simpl in *; lia|simpl in *; lia|].
    exact Hk.
Qed.

Lemma rmatch_cls_greedy cl k res w lo st tail :
  ms_rest st = w ++ tail ->
  Forall (fun x => cls_match icase cl x = true) w ->
  match tail with [] => True | x :: _ => cls_match icase cl x = false end ->
  lo <= length w ->
  k (ms_skip st w tail) = Some res ->
  rmatch (Rep lo None (Cls cl)) st k = Some res.
Proof.
  intros Hrest Hall Htail Hlo Hk. rewrite rmatch_Rep.
  eapply rep_loop_cls_greedy; eauto.
  rewrite Hrest, length_app. lia.
Qed.








End MatcherFacts.

(** Put the literal strings and the patterns of a goal in constructor form. *)
Ltac eval_u :=
  repeat match goal with
         | |- context [u ?s] =>
             let v := eval vm_compute in (u s) in change (u s) with v
         | |- context [ch ?a] =>
             let v := eval vm_compute in (ch a) in change (ch a) with v
         end.

Ltac eval_body rx :=
  let b := eval vm_compute in (re_body rx) in
  change (re_body rx) with b in *.

(** Take apart a run through a pattern in constructor form, down to its
    quantifiers. *)
Ltac inv_matches :=
  repeat match goal with
         | H : matches _ _ (Seq _ _) _ _ |- _ => inversion H; clear H; subst
         | H : matches _ _ (Chr _) _ _ |- _ => inversion H; clear H; subst
         | H : matches _ _ (Grp _ _) _ _ |- _ => inversion H; clear H; subst
         | H : matches _ _ Bol _ _ |- _ => inversion H; clear H; subst
         | H : matches _ _ Eol _ _ |- _ => inversion H; clear H; subst
         | H : matches _ _ Eps _ _ |- _ => inversion H; clear H; subst
         end.

Lemma chr_match_exact c x : chr_match false c x = true -> x = c.
Proof. unfold chr_match. rewrite andb_false_l, orb_false_r. apply N.eqb_eq. Qed.

Lemma search_at_inv rx rest : forall prev pos m,
  search_at rx prev pos rest = Some m ->
  exists prev' rest' st',
    match_at rx prev' rest' = Some st' /\ m_caps m = ms_caps st'.
Proof.
  induction rest as [|x rest IH]; intros prev pos m; simpl.
  - destruct (match_at rx prev []) as [st'|] eqn:Hm; [|done].
    intros [= <-]. simpl. eauto.
  - destruct (match_at rx prev (x :: rest)) as [st'|] eqn:Hm.
    + intros [= <-]. simpl. eauto.
    + apply IH.
Qed.

Lemma search_at_here rx prev pos rest st' :
  match_at rx prev rest = Some st' ->
  search_at rx prev pos rest =
  Some (MResult pos (take (length rest - length (ms_rest st')) rest)
          (ms_caps st') st').
Proof. intros H. destruct rest; simpl; by rewrite H. Qed.

(** *** Numbers *)

Lemma digits_value_all radix ds : forall acc seen,
  Forall (fun x => is_radix_digit radix x = true) ds ->
  digits_value radix acc seen ds =
  if seen || negb (is_empty ds)
  then Some (fold_left (fun acc x => (radix * acc + digit_of x)%N) ds acc)
  else None.
Proof.
  induction ds as [|x ds IH]; intros acc seen Hall; simpl.
  - by rewrite orb_false_r.
  - apply Forall_cons in Hall as [Hx Hall]. unfold is_radix_digit in Hx.
    unfold digit_of. destruct (digit_value x) as [d|]; [|done]. simpl.
    rewrite Hx, IH by done. by rewrite orb_true_r.
Qed.

Lemma double_of_N_small n : (n < 2 ^ 53)%N -> double_of_N n = Some n.
Proof. intros H. unfold double_of_N. by rewrite (proj2 (N.ltb_lt _ _) H). Qed.

(** Rounding never takes a large integer below [2^53]. *)
Lemma double_of_N_large n v :
  (2 ^ 53 <= n)%N -> double_of_N n = Some v -> (2 ^ 53 <= v)%N.
Proof.
  intros Hn. unfold double_of_N.
  rewrite (proj2 (N.ltb_ge _ _) Hn).
  set (e := (N.log2 n - 52)%N). set (q := (n / 2 ^ e)%N).
  assert (53 <= N.log2 n)%N as Hlog.
  { apply N.log2_le_pow2; [lia|done]. }
  assert (2 ^ 52 <= q)%N as Hq.
  { apply N.div_le_lower_bound; [apply N.pow_nonzero; lia|].
    rewrite <- N.pow_add_r. replace (e + 52)%N with (N.log2 n) by (subst e; lia).
    apply N.log2_spec. lia. }
  assert (2 ^ 1 <= 2 ^ e)%N as He.
  { apply N.pow_le_mono_r; [lia|subst e; lia]. }
  change (2 ^ 1)%N with 2%N in He.
  change (2 ^ 53)%N with (2 ^ 52 * 2)%N.
  destruct (_ || _); destruct (_ <? 2 ^ 1024)%N; intros [= <-]; nia.
Qed.

Ltac decide_comparisons :=
  repeat match goal with
         | |- context [(?x <=? ?y)%N] =>
             first [rewrite (proj2 (N.leb_le x y)) by lia
                   |rewrite (proj2 (N.leb_gt x y)) by lia]
         | |- context [(?x <? ?y)%N] =>
             first [rewrite (proj2 (N.ltb_lt x y)) by lia
                   |rewrite (proj2 (N.ltb_ge x y)) by lia]
         end.

(** The chain of tests in the script and the table of the specification give
    every address the same tier. *)
Lemma privilegeOf_table (a : N) :
  privilegeOf (number_of_N false a) = table_lookup privilege_table a.
Proof.
  unfold number_of_N.
  destruct (N.lt_ge_cases a (2 ^ 53)) as [Hsmall|Hlarge].
  - rewrite double_of_N_small by done.
    unfold privilegeOf, privilege_table, table_lookup, num_ge, num_lt.
    assert (a < 0x100 \/ 0x100 <= a < 0x200 \/ 0x200 <= a < 0x300
            \/ 0x300 <= a < 0x400 \/ 0x400 <= a < 0x500
            \/ 0x500 <= a < 0x600 \/ 0x600 <= a < 0x700
            \/ 0x700 <= a < 0x800 \/ 0x800 <= a < 0xB00
            \/ 0xB00 <= a < 0xC00 \/ 0xC00 <= a < 0xD00
            \/ 0xD00 <= a < 0xF00 \/ 0xF00 <= a)%N as Hcases by lia.
    clear Hsmall.
    repeat (destruct Hcases as [Hc|Hcases]; [decide_comparisons; reflexivity|]).
    decide_comparisons; reflexivity.
  - assert (2 ^ 53 = 9007199254740992)%N as E by reflexivity.
    assert (table_lookup privilege_table a = u "M") as ->.
    { unfold privilege_table, table_lookup. rewrite E in Hlarge.
      decide_comparisons. reflexivity. }
    destruct (double_of_N a) as [v|] eqn:Hv; [|reflexivity].
    apply double_of_N_large in Hv; [|done]. rewrite E in Hv.
    unfold privilegeOf, num_ge, num_lt. decide_comparisons. reflexivity.
Qed.

(** *** The register table *)

Lemma hex_class_is_hex x :
  cls_match false (CRanges false [rng "0" "9"; rng "A" "F"; rng "a" "f"]) x = true ->
  is_hex x = true.
Proof.
  unfold cls_match, in_ranges, is_hex, is_radix_digit, digit_value,
    is_digit, is_lower, is_upper.
  vm_compute rng. simpl. intros H.
  rewrite ?orb_true_iff, ?andb_true_iff, ?N.leb_le in H.
  assert ((48 <= x <= 57) \/ (65 <= x <= 70) \/ (97 <= x <= 102))%N as Hx
      by (clear -H; intuition discriminate).
  clear H.
  destruct Hx as [Hx|[Hx|Hx]];
    repeat match goal with
           | |- context [(?x <=? ?y)%N] =>
               first [rewrite (proj2 (N.leb_le x y)) by lia
                     |rewrite (proj2 (N.leb_gt x y)) by lia]
           end; simpl; apply N.ltb_lt; lia.
Qed.

(** What the record pattern captures as the address. *)
Lemma csv_match_address prev rest st' :
  match_at csv_re prev rest = Some st' ->
  exists ds,
    cap_lookup (ms_caps st') 1 = u "0x" ++ ds
    /\ ds <> [] /\ Forall (fun x => is_hex x = true) ds.
Proof.
  eval_u. unfold match_at. intros (st & Hm & [= <-])%rmatch_sound.
  change (re_i csv_re) with false in *. change (re_m csv_re) with false in *.
  eval_body csv_re. inv_matches.
  repeat match goal with
         | H : chr_match false _ _ = true |- _ => apply chr_match_exact in H; subst
         end.
  match goal with
  | H : matches _ _ (Rep 1 None (Cls (CRanges false _))) _ _ |- _ =>
      apply matches_rep_cls in H as (ds & Hds & Hall & Hlen & _ & _)
  end.
  repeat match goal with
         | H : matches _ _ (Rep _ None (Cls _)) _ _ |- _ =>
             apply matches_rep_cls in H as (? & _ & _ & _ & ? & _)
         end.
  exists ds. simpl in *. split; [|split].
  - repeat match goal with H : ms_caps _ = _ |- _ => rewrite H end.
    simpl. apply consumed_spec. simpl. by subst.
  - destruct ds; [simpl in Hlen; lia|done].
  - eapply Forall_impl; [exact Hall|]. intros y Hy. by apply hex_class_is_hex.
Qed.

Lemma parseInt_hex ds :
  ds <> [] -> Forall (fun x => is_hex x = true) ds ->
  parseInt (u "0x" ++ ds) (Some 16%N) = number_of_N false (numeral 16 ds).
Proof.
  intros Hne Hall. unfold parseInt. eval_u. simpl.
  rewrite startsWith_nil. simpl. unfold is_hex in Hall.
  rewrite digits_value_all by done.
  destruct ds; [done|]. reflexivity.
Qed.

Lemma csvLine_inv c line :
  c ∈ csvLine [] line ->
  exists m, exec csv_re (trim line) = Some m
            /\ c = mkCSR (group m 2) (group m 1)
                     (privilegeOf (parseInt (group m 1) (Some 16%N))) [].
Proof.
  unfold csvLine. destruct (_ || _); [by intros ?%elem_of_nil|].
  destruct (exec csv_re (trim line)) as [m|]; [|by intros ?%elem_of_nil].
  intros ->%list_elem_of_singleton. eauto.
Qed.

(** C2. Every CSR record of the table parser has an address [0x] followed by
    hexadecimal digits, and its privilege is what the table of the
    specification, read in its order with the first match winning and "U" as
    the default, gives the integer those digits denote; the tier is a function
    of that integer alone.  The lines of scenarios B and C give "M" for 0x305
    and "U" for 0xC01. *)
Theorem C2_privilege_matches_table :
  (forall content c,
      c ∈ parseCSVFile content ->
      exists ds,
        c_address c = u "0x" ++ ds
        /\ ds <> [] /\ Forall (fun x => is_hex x = true) ds
        /\ c_privilege c = table_lookup privilege_table (numeral 16 ds))
  /\ (forall a : N,
      privilegeOf (number_of_N false a) = table_lookup privilege_table a)
  /\ parseCSVFile (u "0x305, " ++ [DQUOTE] ++ u "mtvec" ++ [DQUOTE]) =
     [mkCSR (u "mtvec") (u "0x305") (u "M") []]
  /\ parseCSVFile (u "0xC01, " ++ [DQUOTE] ++ u "fflags" ++ [DQUOTE]) =
     [mkCSR (u "fflags") (u "0xC01") (u "U") []].
Proof.
  split; [|split; [exact privilegeOf_table|split; reflexivity]].
  intros content c Hin. rewrite parseCSVFile_lines in Hin.
  apply list_elem_of_In, in_concat in Hin as (l & Hl & Hin).
  apply in_map_iff in Hl as (line & <- & _).
  apply list_elem_of_In, csvLine_inv in Hin as (m & Hm & ->).
  apply search_at_inv in Hm as (prev' & rest' & st' & Hst & Hcaps).
  apply csv_match_address in Hst as (ds & Hg & Hne & Hall).
  exists ds. unfold group. rewrite Hcaps, Hg. cbn [c_address c_privilege].
  repeat split; try done.
  rewrite parseInt_hex by done. apply privilegeOf_table.
Qed.

Lemma C2_witness :
  exists ds,
    u "0x7C0" = u "0x" ++ ds
    /\ ds <> [] /\ Forall (fun x => is_hex x = true) ds
    /\ u "M" = table_lookup privilege_table (numeral 16 ds).
Proof.
  destruct C2_privilege_matches_table as [H _].
  apply (H (u "# custom" ++ [LF] ++ u "0x7C0, " ++ [DQUOTE] ++ u "mcustom"
            ++ [DQUOTE] ++ [LF])
           (mkCSR (u "mcustom") (u "0x7C0") (u "M") [])).
  vm_compute. apply list_elem_of_here.
Defined.

(** *** The encoding-line grammar *)

Lemma rep_loop_cls_greedy_end icase multiline cl k res w fuel lo st :
  ms_rest st = w ->
  Forall (fun x => cls_match icase cl x = true) w ->
  lo <= length w -> length w < fuel ->
  k (ms_skip st w []) = Some res ->
  rep_loop (rmatch icase multiline (Cls cl)) k fuel lo None st = Some res.
Proof.
  intros Hrest Hall Hlo Hfuel Hk.
  eapply rep_loop_cls_greedy with (w := w) (tail := []); eauto.
  by rewrite app_nil_r.
Qed.

(** Let a quantifier over a class take the run [run] and go on with the
    continuation. *)
Ltac greedy run :=
  eapply (rep_loop_cls_greedy false false) with (w := run);
  [reflexivity
  |
  |try reflexivity
  |try (destruct run; [done|simpl; lia])
  |cbn [ms_rest ms_step ms_capture ms_skip]; rewrite ?length_app; simpl; lia
  |cbn [ms_skip ms_capture ms_rest ms_prev ms_caps ms_step app chr_match
          N.eqb Pos.eqb orb andb at_eol at_bol]].

Ltac greedy_end run :=
  eapply (rep_loop_cls_greedy_end false false) with (w := run);
  [reflexivity
  |
  |try (destruct run; [done|simpl; lia])
  |cbn [ms_rest ms_step ms_capture ms_skip]; rewrite ?length_app; simpl; lia
  |cbn [ms_skip ms_capture ms_rest ms_prev ms_caps ms_step app chr_match
          N.eqb Pos.eqb orb andb at_eol at_bol]].

Ltac plain_flags rx :=
  change (re_i rx) with false in *; change (re_m rx) with false in *.

Lemma dot_run v :
  Forall (fun x => is_line_terminator x = false) v ->
  Forall (fun x => cls_match false CDot x = true) v.
Proof.
  intros H. eapply Forall_impl; [exact H|].
  intros x Hx. simpl in *. by rewrite Hx.
Qed.

(** The bit-range pattern on a token [h..l=v]. *)
Lemma range_re_match hs ls v :
  Forall (fun x => is_digit x = true) hs -> hs <> [] ->
  Forall (fun x => is_digit x = true) ls -> ls <> [] ->
  Forall (fun x => is_line_terminator x = false) v -> v <> [] ->
  exists st',
    match_at range_re None (hs ++ u ".." ++ ls ++ u "=" ++ v) = Some st'
    /\ ms_caps st' = [(3, v); (2, ls); (1, hs)].
Proof.
  intros Hhs Hhs0 Hls Hls0 Hv Hv0. eval_u. unfold match_at.
  plain_flags range_re. eval_body range_re.
  eexists. split.
  - cbn [rmatch at_bol ms_prev].
    greedy hs; [exact Hhs|].
    greedy ls; [exact Hls|].
    greedy_end v; [by apply dot_run|].
    reflexivity.
  - cbn [ms_caps ms_capture ms_skip ms_step].
    rewrite (consumed_spec _ _ v) by (simpl; by rewrite app_nil_r).
    rewrite (consumed_spec _ _ ls) by reflexivity.
    by rewrite (consumed_spec _ _ hs) by reflexivity.
Qed.

(** The single-bit pattern on a token [b=v]. *)
Lemma single_re_match bs v :
  Forall (fun x => is_digit x = true) bs -> bs <> [] ->
  Forall (fun x => is_line_terminator x = false) v -> v <> [] ->
  exists st',
    match_at single_re None (bs ++ u "=" ++ v) = Some st'
    /\ ms_caps st' = [(2, v); (1, bs)].
Proof.
  intros Hbs Hbs0 Hv Hv0. eval_u. unfold match_at.
  plain_flags single_re. eval_body single_re.
  eexists. split.
  - cbn [rmatch at_bol ms_prev].
    greedy bs; [exact Hbs|].
    greedy_end v; [by apply dot_run|].
    reflexivity.
  - cbn [ms_caps ms_capture ms_skip ms_step].
    rewrite (consumed_spec _ _ v) by (simpl; by rewrite app_nil_r).
    by rewrite (consumed_spec _ _ bs) by reflexivity.
Qed.

(** Two runs of one class that end at a character outside it end at the same
    place. *)
Lemma run_unique (P : N -> bool) w1 : forall w2 x1 x2 r1 r2,
  Forall (fun x => P x = true) w1 -> Forall (fun x => P x = true) w2 ->
  P x1 = false -> P x2 = false ->
  w1 ++ x1 :: r1 = w2 ++ x2 :: r2 -> w1 = w2 /\ x1 = x2 /\ r1 = r2.
Proof.
  induction w1 as [|y w1 IH]; intros [|z w2] x1 x2 r1 r2 H1 H2 Hx1 Hx2; simpl.
  - by intros [= -> ->].
  - intros [= -> _]. apply Forall_cons in H2 as [Hz _]. congruence.
  - intros [= -> _]. apply Forall_cons in H1 as [Hy _]. congruence.
  - intros [= -> Heq].
    apply Forall_cons in H1 as [_ H1]. apply Forall_cons in H2 as [_ H2].
    destruct (IH _ _ _ _ _ H1 H2 Hx1 Hx2 Heq) as (-> & -> & ->). done.
Qed.

Lemma search_at_anchored rx rest : forall prev pos,
  (forall x rest', match_at rx (Some x) rest' = None) ->
  match_at rx prev rest = None ->
  search_at rx prev pos rest = None.
Proof.
  induction rest as [|x rest IH]; intros prev pos Hanch H0; simpl; rewrite H0.
  - done.
  - by apply IH.
Qed.

(** The bit-range pattern finds nothing in a single-bit token. *)
Lemma range_re_single_token bs v :
  Forall (fun x => is_digit x = true) bs ->
  exec range_re (bs ++ u "=" ++ v) = None.
Proof.
  intros Hbs. eval_u. apply search_at_anchored; [reflexivity|].
  destruct (match_at range_re None _) as [st'|] eqn:Hm; [exfalso|done].
  unfold match_at in Hm. apply rmatch_sound in Hm as (st & Hm & _).
  plain_flags range_re. eval_body range_re. inv_matches.
  repeat match goal with
         | H : chr_match false _ _ = true |- _ => apply chr_match_exact in H; subst
         end.
  match goal with
  | H : matches _ _ (Rep 1 None (Cls CDigit)) (MState None _ []) _ |- _ =>
      apply matches_rep_cls in H as (w & Hw & Hall & _)
  end.
  simpl in *.
  match goal with
  | H : ms_rest _ = 46%N :: _ |- _ => rewrite H in Hw
  end.
  match type of Hw with
  | bs ++ ?x1 :: ?r1 = w ++ ?x2 :: ?r2 =>
      destruct (run_unique is_digit bs w x1 x2 r1 r2 Hbs Hall eq_refl eq_refl Hw)
        as (_ & ? & _)
  end.
  done.
Qed.

Lemma printable_not_space x : printable x -> is_space x = false.
Proof.
  unfold printable, is_space. intros H. simpl.
  repeat rewrite (proj2 (N.eqb_neq x _)) by lia.
  rewrite (proj2 (N.leb_gt _ x)) by lia. reflexivity.
Qed.

Lemma printable_not_terminator x : printable x -> is_line_terminator x = false.
Proof.
  unfold printable, is_line_terminator. intros H. simpl.
  repeat rewrite (proj2 (N.eqb_neq x _)) by lia. reflexivity.
Qed.

Lemma digit_range x : is_digit x = true -> (48 <= x <= 57)%N.
Proof. unfold is_digit. intros [H1%N.leb_le H2%N.leb_le]%andb_true_iff. lia. Qed.

Lemma hex_range x :
  is_hex x = true -> (48 <= x <= 57 \/ 65 <= x <= 70 \/ 97 <= x <= 102)%N.
Proof.
  unfold is_hex, is_radix_digit, digit_value, is_digit, is_lower, is_upper.
  destruct (N.leb_spec 48 x), (N.leb_spec x 57); simpl; try lia;
    destruct (N.leb_spec 97 x), (N.leb_spec x 122); simpl;
    try (intros ?%N.ltb_lt; lia);
    destruct (N.leb_spec 65 x), (N.leb_spec x 90); simpl;
    try (intros ?%N.ltb_lt; lia); done.
Qed.

Lemma digit_printable x : is_digit x = true -> printable x.
Proof. intros ?%digit_range. unfold printable. lia. Qed.

Lemma hex_printable x : is_hex x = true -> printable x.
Proof. intros ?%hex_range. unfold printable. lia. Qed.

Lemma digit_is_radix10 x : is_digit x = true -> is_radix_digit 10 x = true.
Proof.
  intros H. unfold is_radix_digit, digit_value. rewrite H.
  apply digit_range in H. apply N.ltb_lt. lia.
Qed.

(** A token without white space is the only part of its line. *)
Lemma ws_re_no_match prev x rest :
  is_space x = false -> match_at ws_re prev (x :: rest) = None.
Proof.
  intros Hx. unfold match_at. plain_flags ws_re. eval_body ws_re.
  rewrite rmatch_Rep, rep_loop_S, rmatch_Cls. simpl. by rewrite Hx.
Qed.

Lemma split_re_from_no_space rest : forall fuel prev cur,
  length rest < fuel -> Forall (fun x => is_space x = false) rest ->
  split_re_from fuel ws_re prev cur rest = [rev cur ++ rest].
Proof.
  induction rest as [|x rest IH]; intros fuel prev cur Hfuel Hall;
    (destruct fuel as [|fuel]; [simpl in Hfuel; lia|]); simpl.
  - by rewrite app_nil_r.
  - apply Forall_cons in Hall as [Hx Hall].
    rewrite ws_re_no_match by done.
    rewrite IH by (simpl in Hfuel; done || lia). simpl.
    by rewrite <- app_assoc.
Qed.

Lemma split_re_no_space s :
  s <> [] -> Forall (fun x => is_space x = false) s -> split_re s ws_re = [s].
Proof.
  intros Hne Hall. unfold split_re. destruct s as [|x s]; [done|].
  rewrite split_re_from_no_space; [done| |done]. simpl. lia.
Qed.

(** No known operand begins with a digit. *)
Lemma has_operand_digit token :
  starts_with_digit token = true -> has_operand token = false.
Proof.
  intros Hd. unfold has_operand. apply bool_decide_eq_false.
  unfold KNOWN_OPERANDS. rewrite elem_of_list_to_set.
  assert (Forall (fun op => starts_with_digit op = false) KNOWN_OPERANDS_list)
    as Hall by (unfold KNOWN_OPERANDS_list; repeat constructor).
  intros Hin. eapply Forall_forall in Hall; [|exact Hin]. congruence.
Qed.

Lemma parseInt_dec ds :
  ds <> [] -> Forall (fun x => is_dec x = true) ds ->
  parseInt ds None = number_of_N false (numeral 10 ds).
Proof.
  intros Hne Hall. unfold parseInt, is_dec in *. eval_u.
  destruct ds as [|d ds]; [done|].
  apply Forall_cons in Hall as [Hd Hall].
  pose proof (digit_range _ Hd) as Hdr.
  assert (trimStart (d :: ds) = d :: ds) as ->.
  { simpl. by rewrite printable_not_space by by apply digit_printable. }
  assert (startsWith (d :: ds) [45%N] = false) as ->.
  { simpl. rewrite (proj2 (N.eqb_neq d 45)) by lia. done. }
  assert (startsWith (d :: ds) [43%N] = false) as ->.
  { simpl. rewrite (proj2 (N.eqb_neq d 43)) by lia. done. }
  assert (forall y, (y = 120 \/ y = 88)%N -> startsWith (d :: ds) [48%N; y] = false)
    as Hx.
  { intros y Hy. simpl. destruct ds as [|d2 ds]; [by rewrite andb_false_r|].
    apply Forall_cons in Hall as [Hd2%digit_range _]. simpl.
    rewrite (proj2 (N.eqb_neq d2 y)) by lia. by rewrite andb_false_r. }
  rewrite !Hx by lia. cbn [orb andb].
  rewrite (digits_value_all 10 (d :: ds)).
  - reflexivity.
  - constructor; [by apply digit_is_radix10|].
    eapply Forall_impl; [exact Hall|]. intros y Hy. by apply digit_is_radix10.
Qed.

Lemma literal_printable v n : literal v n -> v <> [] /\ Forall printable v.
Proof.
  intros [ds Hne Hall|ds Hne Hall].
  - eval_u. split; [done|]. repeat constructor; try (unfold printable; lia).
    eapply Forall_impl; [exact Hall|]. intros x. apply hex_printable.
  - split; [done|]. eapply Forall_impl; [exact Hall|]. intros x. apply digit_printable.
Qed.

(** The value of a literal, by the script's choice of radix. *)
Lemma field_number_literal v n :
  literal v n -> field_number v = number_of_N false n.
Proof.
  intros [ds Hne Hall|ds Hne Hall]; unfold field_number.
  - rewrite parseInt_hex by done. eval_u. simpl. by rewrite startsWith_nil.
  - rewrite parseInt_dec by done. eval_u.
    destruct ds as [|d ds]; [done|]. simpl.
    apply Forall_cons in Hall as [Hd Hall]. unfold is_dec in *.
    destruct ds as [|d2 ds]; [by rewrite andb_false_r|].
    apply Forall_cons in Hall as [Hd2%digit_range _]. simpl.
    rewrite (proj2 (N.eqb_neq d2 120)) by lia. by rewrite andb_false_r.
Qed.

Lemma exec_of_match rx s st' :
  match_at rx None s = Some st' ->
  exists m, exec rx s = Some m /\ m_caps m = ms_caps st'.
Proof. intros H. unfold exec. rewrite (search_at_here _ _ _ _ _ H). eauto. Qed.

Lemma terminator_is_space x : is_line_terminator x = true -> is_space x = true.
Proof.
  unfold is_line_terminator, is_space. simpl. rewrite !orb_false_r.
  intros H. repeat (apply orb_true_iff in H as [H|H]);
    apply N.eqb_eq in H; subst; reflexivity.
Qed.

Lemma parseEncodingLine_token token :
  token <> [] -> Forall (fun x => is_space x = false) token ->
  parseEncodingLine token = encodingPart ([], []) token.
Proof.
  intros Hne Hall. unfold parseEncodingLine. by rewrite split_re_no_space.
Qed.

Lemma small_number n : (n < 2 ^ 53)%N -> number_of_N false n = Int n.
Proof. intros H. unfold number_of_N. by rewrite double_of_N_small. Qed.

(** *** Precedence of the normative-anchor scan *)

Lemma normStep_lookup d m n :
  normStep d m !! n =
  if decide (kept_for n m)
  then accumulate (d !! n) [cleanAdocText (group m 2)]
  else d !! n.
Proof.
  unfold normStep, kept_for.
  destruct (10 <? _)%nat eqn:Hlen.
  - apply Nat.ltb_lt in Hlen.
    destruct (decide (toLowerCase (group m 1) = n)) as [<-|Hn].
    + rewrite decide_True by done. unfold accumulate. simpl.
      destruct (d !! toLowerCase (group m 1)) as [[|x e]|]; simpl;
        by rewrite lookup_insert_eq.
    + rewrite decide_False by tauto.
      destruct (negb _); by rewrite lookup_insert_ne.
  - apply Nat.ltb_ge in Hlen. rewrite decide_False by lia. done.
Qed.

Lemma accumulate_app e t1 t2 :
  accumulate e (t1 ++ t2) = accumulate (accumulate e t1) t2.
Proof. unfold accumulate. by rewrite fold_left_app. Qed.

Lemma normPass_lookup n ms : forall d,
  fold_left normStep ms d !! n = accumulate (d !! n) (norm_texts n ms).
Proof.
  unfold norm_texts.
  induction ms as [|m ms IH]; intros d; [done|].
  rewrite fold_left_cons, IH, normStep_lookup, filter_cons.
  destruct (decide (kept_for n m)); [|done].
  rewrite <- accumulate_app. cbn [map app]. reflexivity.
Qed.





Lemma sectionStep_lookup content d m n :
  is_Some (d !! n) ->
  (toLowerCase (group m 2) = n ->
   sectionNormTexts (sectionBody content m 2000) = []) ->
  sectionStep content d m !! n = d !! n.
Proof.
  intros Hsome Hfallback. unfold sectionStep.
  destruct (decide (toLowerCase (group m 2) = n)) as [Hn|Hn].
  - rewrite (Hfallback Hn). simpl. rewrite Hn.
    unfold has. rewrite bool_decide_eq_true_2 by done. simpl.
    by destruct (firstParagraph _).
  - repeat match goal with
           | |- context [if ?b then _ else _] => destruct b
           | |- context [match ?o with Some _ => _ | None => _ end] => destruct o
           end; try done; by rewrite lookup_insert_ne.
Qed.

Lemma sectionPass_lookup content n ms : forall d,
  is_Some (d !! n) ->
  Forall (fun m => toLowerCase (group m 2) = n ->
                   sectionNormTexts (sectionBody content m 2000) = []) ms ->
  fold_left (sectionStep content) ms d !! n = d !! n.
Proof.
  induction ms as [|m ms IH]; intros d Hsome Hall; [done|].
  rewrite fold_left_cons.
  apply Forall_cons in Hall as [Hm Hall].
  rewrite IH; [by apply sectionStep_lookup| |done].
  by rewrite sectionStep_lookup.
Qed.

Lemma proseStep_lookup d m n :
  is_Some (d !! n) -> proseStep d m !! n = d !! n.
Proof.
  intros Hsome. unfold proseStep.
  destruct (decide (toLowerCase (group m 1) = n)) as [Hn|Hn].
  - rewrite Hn. unfold has. rewrite bool_decide_eq_true_2 by done.
    by rewrite andb_false_r.
  - destruct (_ && _); [|done]. by rewrite lookup_insert_ne.
Qed.

Lemma prosePass_lookup n ms : forall d,
  is_Some (d !! n) -> fold_left proseStep ms d !! n = d !! n.
Proof.
  induction ms as [|m ms IH]; intros d Hsome; [done|].
  rewrite fold_left_cons.
  rewrite IH; [by apply proseStep_lookup|]. by rewrite proseStep_lookup.
Qed.










(** **** Scenario D: the span anywhere in a document *)


















(** *** The markup cleaner *)

(** C6, as the specification states it, fails: nested emphasis marks are
    peeled one layer per call. *)
Lemma C6_clean_not_idempotent :
  cleanAdocText (u "__a__") = u "_a_"
  /\ cleanAdocText (cleanAdocText (u "__a__")) = u "a"
  /\ cleanAdocText (cleanAdocText (u "__a__")) <> cleanAdocText (u "__a__").
Proof. split; [reflexivity|split; [reflexivity|]]. vm_compute. discriminate. Qed.

Lemma search_at_none rx rest : forall prev pos,
  (forall prev' rest', suffix rest' rest -> match_at rx prev' rest' = None) ->
  search_at rx prev pos rest = None.
Proof.
  induction rest as [|x rest IH]; intros prev pos Hnone; simpl;
    rewrite Hnone by done.
  - done.
  - apply IH. intros prev' rest' Hs. apply Hnone. by apply suffix_cons_r.
Qed.

Lemma replace_g_none s rx repl :
  (forall prev rest, suffix rest s -> match_at rx prev rest = None) ->
  replace_g s rx repl = s.
Proof.
  intros Hnone. unfold replace_g. cbn [replace_from].
  by rewrite search_at_none.
Qed.

Lemma markup_free_suffix rest s :
  suffix rest s -> Forall (fun x => is_markup x = false) s ->
  Forall (fun x => is_markup x = false) rest.
Proof. intros [pre ->] H. by apply Forall_app in H as [_ H]. Qed.

Ltac eval_flags rx :=
  let i := eval vm_compute in (re_i rx) in
  let m := eval vm_compute in (re_m rx) in
  change (re_i rx) with i in *; change (re_m rx) with m in *.

(** A pattern that must read a markup character before anything else finds
    no match in text without markup characters. *)
Ltac no_markup_match rx :=
  let st := fresh "st" in
  let Hm := fresh "Hm" in
  let Hfree := fresh "Hfree" in
  intros prev rest Hfree;
  destruct (match_at rx prev rest) as [st|] eqn:Hm; [exfalso|reflexivity];
  unfold match_at in Hm; apply rmatch_sound in Hm as (? & Hm & _);
  eval_flags rx; eval_body rx; inv_matches;
  repeat match goal with
         | H : chr_match false _ _ = true |- _ => apply chr_match_exact in H; subst
         end;
  simpl in *; subst;
  repeat match goal with
         | H : Forall _ (_ :: _) |- _ =>
             let Hx := fresh "Hx" in
             apply Forall_cons in H as [Hx H]; try discriminate Hx
         end.

Lemma norm_span_re_markup prev rest :
  Forall (fun x => is_markup x = false) rest -> match_at norm_span_re prev rest = None.
Proof. revert prev rest. no_markup_match norm_span_re. Qed.

Lemma xref_re_markup prev rest :
  Forall (fun x => is_markup x = false) rest -> match_at xref_re prev rest = None.
Proof. revert prev rest. no_markup_match xref_re. Qed.

Lemma anchor_re_markup prev rest :
  Forall (fun x => is_markup x = false) rest -> match_at anchor_re prev rest = None.
Proof. revert prev rest. no_markup_match anchor_re. Qed.

Lemma bold_re_markup prev rest :
  Forall (fun x => is_markup x = false) rest -> match_at bold_re prev rest = None.
Proof. revert prev rest. no_markup_match bold_re. Qed.

Lemma star_re_markup prev rest :
  Forall (fun x => is_markup x = false) rest -> match_at star_re prev rest = None.
Proof. revert prev rest. no_markup_match star_re. Qed.

Lemma emph_re_markup prev rest :
  Forall (fun x => is_markup x = false) rest -> match_at emph_re prev rest = None.
Proof. revert prev rest. no_markup_match emph_re. Qed.

Lemma code_re_markup prev rest :
  Forall (fun x => is_markup x = false) rest -> match_at code_re prev rest = None.
Proof. revert prev rest. no_markup_match code_re. Qed.

Lemma footnote_re_markup prev rest :
  Forall (fun x => is_markup x = false) rest -> match_at footnote_re prev rest = None.
Proof. revert prev rest. no_markup_match footnote_re. Qed.

Lemma attr_re_markup prev rest :
  Forall (fun x => is_markup x = false) rest -> match_at attr_re prev rest = None.
Proof. revert prev rest. no_markup_match attr_re. Qed.

Lemma attrline_re_markup prev rest :
  Forall (fun x => is_markup x = false) rest -> match_at attrline_re prev rest = None.
Proof. revert prev rest. no_markup_match attrline_re. Qed.

Lemma replace_g_markup_free s rx repl :
  (forall prev rest,
      Forall (fun x => is_markup x = false) rest -> match_at rx prev rest = None) ->
  Forall (fun x => is_markup x = false) s ->
  replace_g s rx repl = s.
Proof.
  intros Hrx Hs. apply replace_g_none. intros prev rest Hsuf.
  apply Hrx. by eapply markup_free_suffix.
Qed.

(** **** White space *)

Lemma trimStart_decomp s :
  exists w, s = w ++ trimStart s
            /\ Forall (fun x => is_space x = true) w
            /\ head_not_space (trimStart s).
Proof.
  induction s as [|x s (w & Hs & Hw & Hh)]; simpl.
  - by exists [].
  - destruct (is_space x) eqn:Hx.
    + exists (x :: w). split; [simpl; congruence|]. split; [by constructor|done].
    + exists []. repeat split; [constructor|done].
Qed.

Lemma trimStart_fixed s : head_not_space s -> trimStart s = s.
Proof. destruct s as [|x s]; simpl; [done|]. by intros ->. Qed.

Lemma trimStart_idemp s : trimStart (trimStart s) = trimStart s.
Proof.
  destruct (trimStart_decomp s) as (_ & _ & _ & Hh). by apply trimStart_fixed.
Qed.

Lemma search_at_index rx rest : forall prev pos m,
  search_at rx prev pos rest = Some m -> pos <= m_index m.
Proof.
  induction rest as [|x rest IH]; intros prev pos m; simpl;
    destruct (match_at rx prev _); try (intros [= <-]; simpl; lia); try done.
  intros H%IH. lia.
Qed.

Lemma replace_from_S fuel rx repl prev pos rest :
  replace_from (S fuel) rx repl prev pos rest =
  match search_at rx prev pos rest with
  | None => rest
  | Some m =>
      take (m_index m - pos) rest ++ repl m ++
      match resume m with
      | None => []
      | Some (prev', pos', skipped, rest') =>
          skipped ++ replace_from fuel rx repl prev' pos' rest'
      end
  end.
Proof. reflexivity. Qed.

(** Where the pattern does not match, a global replacement copies the
    character and moves on. *)
Lemma replace_from_skip fuel rx repl prev pos x rest :
  match_at rx prev (x :: rest) = None ->
  replace_from (S fuel) rx repl prev pos (x :: rest) =
  x :: replace_from (S fuel) rx repl (Some x) (S pos) rest.
Proof.
  intros Hno. rewrite !replace_from_S. cbn [search_at]. rewrite Hno.
  destruct (search_at rx (Some x) (S pos) rest) as [m|] eqn:Hm; [|done].
  apply search_at_index in Hm.
  replace (m_index m - pos) with (S (m_index m - S pos)) by lia.
  reflexivity.
Qed.

Lemma ws_re_empty prev : match_at ws_re prev [] = None.
Proof. reflexivity. Qed.

(** [\s+] takes the whole run of white space it starts in. *)
Lemma ws_re_run prev w tail :
  w <> [] -> Forall (fun x => is_space x = true) w -> head_not_space tail ->
  match_at ws_re prev (w ++ tail) =
  Some (ms_skip (MState prev (w ++ tail) []) w tail).
Proof.
  intros Hw Hall Htail. unfold match_at. plain_flags ws_re. eval_body ws_re.
  eapply (rmatch_cls_greedy false false); [reflexivity| | | |reflexivity].
  - exact Hall.
  - destruct tail; [done|]. simpl in *. by rewrite Htail.
  - destruct w; [done|simpl; lia].
Qed.

Lemma collapse_ws_run w tail :
  Forall (fun x => is_space x = true) w -> head_not_space tail ->
  collapse_ws true (w ++ tail) = collapse_ws false tail.
Proof.
  intros Hall Htail. induction Hall as [|x w Hx _ IH]; simpl.
  - destruct tail as [|y tail]; [done|]. simpl in *. by rewrite Htail.
  - by rewrite Hx.
Qed.

Lemma replace_ws_from n : forall rest,
  length rest <= n ->
  forall fuel prev pos,
    length rest < fuel ->
    replace_from fuel ws_re (literally (u " ")) prev pos rest =
    collapse_ws false rest.
Proof.
  induction n as [|n IH]; intros rest Hn fuel prev pos Hfuel;
    (destruct fuel as [|fuel]; [lia|]).
  - destruct rest; [reflexivity|simpl in Hn; lia].
  - destruct rest as [|x rest]; [reflexivity|].
    simpl in Hn, Hfuel. destruct (is_space x) eqn:Hx.
    + destruct (trimStart_decomp rest) as (w & Hrest & Hw & Hh).
      set (tail := trimStart rest) in *.
      assert (length rest = length w + length tail) as Hlen
          by (rewrite Hrest at 1; apply length_app).
      rewrite replace_from_S. cbn [collapse_ws]. rewrite Hx.
      clearbody tail. subst rest.
      change (x :: w ++ tail) with ((x :: w) ++ tail).
      rewrite (search_at_here _ _ _ _ _
                 (ws_re_run prev (x :: w) tail ltac:(done)
                    ltac:(by constructor) Hh)).
      cbn [ms_skip ms_rest m_index].
      replace (length ((x :: w) ++ tail) - length tail) with (length (x :: w))
        by (rewrite length_app; lia).
      rewrite take_app_length, Nat.sub_diag.
      unfold resume. cbn [m_text m_end m_index ms_rest ms_prev take app literally].
      cbn [ms_skip ms_rest ms_prev].
      rewrite (IH tail) by lia.
      rewrite (collapse_ws_run w tail) by done.
      unfold literally. eval_u. reflexivity.
    + rewrite replace_from_skip by by apply ws_re_no_match.
      rewrite IH by lia. cbn [collapse_ws]. by rewrite Hx.
Qed.

(** [text.replace(/\s+/g, ' ')] is one pass that turns every run of white
    space into one space. *)
Lemma replace_ws s :
  replace_g s ws_re (literally (u " ")) = collapse_ws false s.
Proof. unfold replace_g. apply (replace_ws_from (length s)); lia. Qed.

Lemma collapse_ws_single_spaced s : forall b,
  single_spaced b (collapse_ws b s) = true.
Proof.
  induction s as [|x s IH]; intros b; simpl; [done|].
  destruct (is_space x) eqn:Hx.
  - destruct b; [apply IH|]. simpl. apply IH.
  - simpl. rewrite Hx. apply IH.
Qed.

Lemma single_spaced_fixed s : forall b,
  single_spaced b s = true -> collapse_ws b s = s.
Proof.
  induction s as [|x s IH]; intros b; simpl; [done|].
  destruct (is_space x) eqn:Hx.
  - intros [[->%N.eqb_eq Hb%negb_true_iff]%andb_true_iff Hs]%andb_true_iff.
    subst b. by rewrite IH.
  - intros Hs. by rewrite IH.
Qed.

Lemma single_spaced_weaken s b :
  single_spaced b s = true -> single_spaced false s = true.
Proof.
  destruct s as [|x s]; simpl; [done|].
  destruct (is_space x); [|done].
  intros [[-> _]%andb_true_iff ->]%andb_true_iff. done.
Qed.

Lemma single_spaced_app s1 : forall b s2,
  single_spaced b (s1 ++ s2) = true -> single_spaced b s1 = true.
Proof.
  induction s1 as [|x s1 IH]; intros b s2; simpl; [done|].
  destruct (is_space x).
  - intros [-> Hs]%andb_true_iff. simpl. by eapply IH.
  - apply IH.
Qed.

Lemma single_spaced_trimStart s : forall b,
  single_spaced b s = true -> single_spaced false (trimStart s) = true.
Proof.
  induction s as [|x s IH]; intros b; simpl; [done|].
  destruct (is_space x) eqn:Hx.
  - intros [_ Hs]%andb_true_iff. by eapply IH.
  - intros Hs. simpl. by rewrite Hx.
Qed.

(** [trimEnd] keeps a prefix and drops white space only. *)
Lemma trimEnd_decomp s :
  exists w, s = trimEnd s ++ w /\ Forall (fun x => is_space x = true) w.
Proof.
  unfold trimEnd. destruct (trimStart_decomp (rev s)) as (w & Hs & Hw & _).
  exists (rev w). split.
  - rewrite <- rev_app_distr, <- Hs. by rewrite rev_involutive.
  - by apply Forall_rev.
Qed.

Lemma single_spaced_trim s b :
  single_spaced b s = true -> single_spaced false (trim s) = true.
Proof.
  intros Hs%single_spaced_trimStart. unfold trim.
  destruct (trimEnd_decomp (trimStart s)) as (w & Hw & _).
  rewrite Hw in Hs. by apply single_spaced_app in Hs.
Qed.

Lemma trimEnd_head s : head_not_space s -> head_not_space (trimEnd s).
Proof.
  intros Hh. destruct (trimEnd_decomp s) as (w & Hs & Hw).
  destruct (trimEnd s) as [|x t] eqn:Ht; [done|].
  rewrite Hs in Hh. exact Hh.
Qed.

(** [trim] is idempotent. *)
Lemma trim_idemp s : trim (trim s) = trim s.
Proof.
  unfold trim.
  assert (head_not_space (trimEnd (trimStart s))) as Hh.
  { apply trimEnd_head. by destruct (trimStart_decomp s) as (_ & _ & _ & ?). }
  rewrite (trimStart_fixed _ Hh).
  unfold trimEnd. by rewrite rev_involutive, trimStart_idemp.
Qed.

(** The shape of every cleaned text: trimmed, white space collapsed. *)
Lemma cleanAdocText_shape text :
  exists z, cleanAdocText text = trim (collapse_ws false z).
Proof. unfold cleanAdocText. cbv zeta. rewrite replace_ws. eauto. Qed.

Lemma cleanAdocText_markup_free y :
  Forall (fun x => is_markup x = false) y ->
  cleanAdocText y = trim (collapse_ws false y).
Proof.
  intros Hy. unfold cleanAdocText. cbv zeta.
  rewrite (replace_g_markup_free y norm_span_re) by (done || apply norm_span_re_markup).
  rewrite (replace_g_markup_free y xref_re) by (done || apply xref_re_markup).
  rewrite (replace_g_markup_free y anchor_re) by (done || apply anchor_re_markup).
  rewrite (replace_g_markup_free y bold_re) by (done || apply bold_re_markup).
  rewrite (replace_g_markup_free y star_re) by (done || apply star_re_markup).
  rewrite (replace_g_markup_free y emph_re) by (done || apply emph_re_markup).
  rewrite (replace_g_markup_free y code_re) by (done || apply code_re_markup).
  rewrite (replace_g_markup_free y footnote_re) by (done || apply footnote_re_markup).
  rewrite (replace_g_markup_free y attr_re) by (done || apply attr_re_markup).
  rewrite (replace_g_markup_free y attrline_re) by (done || apply attrline_re_markup).
  by rewrite replace_ws.
Qed.

(** Where a pattern finds nothing, the global replacement returns the text
    as it is. *)
Lemma replace_g_unmatched s rx repl :
  search s rx = None -> replace_g s rx repl = s.
Proof.
  unfold search, exec, replace_g. rewrite replace_from_S.
  by destruct (search_at rx None 0 s).
Qed.

Lemma cleanAdocText_unmarked t :
  unmarked t -> cleanAdocText t = trim (collapse_ws false t).
Proof.
  unfold unmarked, markup_patterns. rewrite !Forall_cons.
  intros (H1 & H2 & H3 & H4 & H5 & H6 & H7 & H8 & H9 & H10 & _).
  unfold cleanAdocText. cbv zeta.
  rewrite (replace_g_unmatched t norm_span_re) by done.
  rewrite (replace_g_unmatched t xref_re) by done.
  rewrite (replace_g_unmatched t anchor_re) by done.
  rewrite (replace_g_unmatched t bold_re) by done.
  rewrite (replace_g_unmatched t star_re) by done.
  rewrite (replace_g_unmatched t emph_re) by done.
  rewrite (replace_g_unmatched t code_re) by done.
  rewrite (replace_g_unmatched t footnote_re) by done.
  rewrite (replace_g_unmatched t attr_re) by done.
  rewrite (replace_g_unmatched t attrline_re) by done.
  by rewrite replace_ws.
Qed.

(** **** What a replacement does to the length *)

(** A match takes a prefix of the text it starts in. *)
Lemma match_at_suffix rx prev rest st' :
  match_at rx prev rest = Some st' -> exists w, rest = w ++ ms_rest st'.
Proof.
  unfold match_at. intros (st & Hm & [= <-])%rmatch_sound.
  by apply matches_suffix in Hm.
Qed.

Lemma take_matched (rest w tail : str) :
  rest = w ++ tail -> take (length rest - length tail) rest = w.
Proof. intros ->. by rewrite length_app, Nat.add_sub, take_app_length. Qed.

(** Where a search matched, and what it leaves. *)
Lemma search_at_parts rx rest : forall prev pos m,
  search_at rx prev pos rest = Some m ->
  exists pre w,
    rest = pre ++ w ++ ms_rest (m_end m)
    /\ m_index m = pos + length pre
    /\ m_text m = w
    /\ match_at rx (ms_skip_prev prev pre) (w ++ ms_rest (m_end m))
       = Some (m_end m)
    /\ m_caps m = ms_caps (m_end m).
Proof.
  induction rest as [|x rest IH]; intros prev pos m; cbn [search_at].
  - destruct (match_at rx prev []) as [st'|] eqn:Hm; [|done].
    intros [= <-]. cbn [m_end m_index m_text m_caps].
    destruct (match_at_suffix _ _ _ _ Hm) as [w Hw].
    symmetry in Hw. apply app_eq_nil in Hw as [-> Hw].
    exists [], []. rewrite Hw. cbn [app length]. rewrite Nat.add_0_r.
    repeat split; try done.
  - destruct (match_at rx prev (x :: rest)) as [st'|] eqn:Hm.
    + intros [= <-]. cbn [m_end m_index m_text m_caps].
      destruct (match_at_suffix _ _ _ _ Hm) as [w Hw].
      exists [], w. cbn [app length]. rewrite Nat.add_0_r, <- Hw.
      repeat split; try done. by apply (take_matched (x :: rest) w).
    + intros (pre & w & Hrest & Hidx & Htxt & Hst & Hcaps)%IH.
      exists (x :: pre), w. rewrite Hrest at 1.
      repeat split; try done. cbn [length]. lia.
Qed.

(** A global replacement whose every match gives way to text that is not
    longer does not lengthen the text. *)
Lemma replace_from_length rx repl :
  (forall prev pos rest m,
      search_at rx prev pos rest = Some m ->
      length (repl m) <= length (m_text m)) ->
  forall fuel prev pos rest,
    length (replace_from fuel rx repl prev pos rest) <= length rest.
Proof.
  intros Hrepl. induction fuel as [|fuel IH]; intros prev pos rest; [done|].
  rewrite replace_from_S.
  destruct (search_at rx prev pos rest) as [m|] eqn:Hm; [|done].
  pose proof (Hrepl _ _ _ _ Hm) as Hlen.
  destruct (search_at_parts _ _ _ _ _ Hm) as (pre & w & Hrest & Hidx & Htxt & _).
  assert (take (m_index m - pos) rest = pre) as ->.
  { rewrite Hidx, Nat.add_comm, Nat.add_sub, Hrest. apply take_app_length. }
  assert (length rest = length pre + (length w + length (ms_rest (m_end m))))
    as -> by by rewrite Hrest, !length_app.
  rewrite !length_app. rewrite Htxt in Hlen.
  unfold resume. rewrite Htxt.
  destruct w as [|y w].
  - destruct (ms_rest (m_end m)) as [|x rest'] eqn:Hend.
    + simpl in *. lia.
    + cbn [app length].
      specialize (IH (Some x) (S (m_index m + 0)) rest').
      simpl in *. lia.
  - specialize (IH (ms_prev (m_end m)) (m_index m + length (y :: w))
                  (ms_rest (m_end m))).
    simpl in *. lia.
Qed.

Lemma replace_g_length rx repl s :
  (forall prev pos rest m,
      search_at rx prev pos rest = Some m ->
      length (repl m) <= length (m_text m)) ->
  length (replace_g s rx repl) <= length s.
Proof. intros H. by apply replace_from_length. Qed.

(** It shortens the text when there is a match and every match gives way to
    shorter text. *)
Lemma replace_g_shorter rx repl s :
  (forall prev pos rest m,
      search_at rx prev pos rest = Some m ->
      length (repl m) < length (m_text m)) ->
  search s rx <> None ->
  length (replace_g s rx repl) < length s.
Proof.
  intros Hrepl Hsome. unfold search, exec in Hsome. unfold replace_g.
  rewrite replace_from_S.
  destruct (search_at rx None 0 s) as [m|] eqn:Hm; [|done].
  pose proof (Hrepl _ _ _ _ Hm) as Hlen.
  destruct (search_at_parts _ _ _ _ _ Hm) as (pre & w & Hrest & Hidx & Htxt & _).
  assert (forall prev pos rest,
             length (replace_from (length s) rx repl prev pos rest)
             <= length rest) as IH.
  { apply replace_from_length. intros ? ? ? ? H%Hrepl. lia. }
  assert (take (m_index m - 0) s = pre) as ->.
  { rewrite Hidx, Nat.sub_0_r, Hrest. apply take_app_length. }
  assert (length s = length pre + (length w + length (ms_rest (m_end m))))
    as Hs by by rewrite Hrest, !length_app.
  rewrite !length_app. rewrite Htxt in Hlen.
  unfold resume. rewrite Htxt.
  destruct w as [|y w]; [simpl in Hlen; lia|].
  specialize (IH (ms_prev (m_end m)) (m_index m + length (y :: w))
                (ms_rest (m_end m))).
  simpl in *. lia.
Qed.

(** Take a match of a pattern apart and count what it read. *)
Ltac count_match rx :=
  let st := fresh "st" in
  let Hm := fresh "Hm" in
  unfold match_at; intros (st & Hm & [= <-])%rmatch_sound;
  eval_flags rx; eval_body rx; inv_matches;
  repeat match goal with
         | H : matches _ _ (Rep _ _ (Cls _)) _ _ |- _ =>
             apply matches_rep_cls in H as (? & ? & _ & ? & ? & _)
         end;
  cbn [ms_rest ms_step ms_capture ms_caps] in *;
  repeat match goal with
         | H : ms_caps _ = _ |- _ => rewrite H in *; clear H
         end;
  cbn [ms_rest ms_step ms_capture ms_caps cap_lookup Nat.eqb] in *;
  repeat match goal with
         | H : ?r = ?w ++ ms_rest ?b |- context [consumed ?a ?b] =>
             rewrite (consumed_spec a b w H)
         end;
  repeat match goal with
         | H : @eq (list N) _ _ |- _ =>
             apply (f_equal length) in H; rewrite ?length_app in H;
             cbn [length] in H
         end;
  lia.

Lemma norm_span_re_shorter prev rest st' :
  match_at norm_span_re prev rest = Some st' ->
  length (cap_lookup (ms_caps st') 1) < length rest - length (ms_rest st').
Proof. count_match norm_span_re. Qed.

Lemma xref_re_shorter prev rest st' :
  match_at xref_re prev rest = Some st' ->
  0 < length rest - length (ms_rest st').
Proof. count_match xref_re. Qed.

Lemma anchor_re_shorter prev rest st' :
  match_at anchor_re prev rest = Some st' ->
  0 < length rest - length (ms_rest st').
Proof. count_match anchor_re. Qed.

Lemma bold_re_shorter prev rest st' :
  match_at bold_re prev rest = Some st' ->
  length (cap_lookup (ms_caps st') 1) < length rest - length (ms_rest st').
Proof. count_match bold_re. Qed.

Lemma star_re_shorter prev rest st' :
  match_at star_re prev rest = Some st' ->
  length (cap_lookup (ms_caps st') 1) < length rest - length (ms_rest st').
Proof. count_match star_re. Qed.

Lemma emph_re_shorter prev rest st' :
  match_at emph_re prev rest = Some st' ->
  length (cap_lookup (ms_caps st') 1) < length rest - length (ms_rest st').
Proof. count_match emph_re. Qed.

Lemma code_re_shorter prev rest st' :
  match_at code_re prev rest = Some st' ->
  length (cap_lookup (ms_caps st') 1) < length rest - length (ms_rest st').
Proof. count_match code_re. Qed.

Lemma footnote_re_shorter prev rest st' :
  match_at footnote_re prev rest = Some st' ->
  0 < length rest - length (ms_rest st').
Proof. count_match footnote_re. Qed.

Lemma attr_re_shorter prev rest st' :
  match_at attr_re prev rest = Some st' ->
  0 < length rest - length (ms_rest st').
Proof. count_match attr_re. Qed.

Lemma attrline_re_shorter prev rest st' :
  match_at attrline_re prev rest = Some st' ->
  0 < length rest - length (ms_rest st').
Proof. count_match attrline_re. Qed.

Lemma cleanAdocText_steps text :
  cleanAdocText text = trim (collapse_ws false (run_steps markup_steps text)).
Proof. unfold cleanAdocText. cbv zeta. by rewrite replace_ws. Qed.

Lemma shortening_dollar1 rx :
  (forall prev rest st',
      match_at rx prev rest = Some st' ->
      length (cap_lookup (ms_caps st') 1) < length rest - length (ms_rest st')) ->
  shortening (rx, dollar1).
Proof.
  intros Hrx prev pos rest m Hm. cbn [fst snd] in *.
  destruct (search_at_parts _ _ _ _ _ Hm) as (pre & w & _ & _ & -> & Hst & Hcaps).
  apply Hrx in Hst. unfold dollar1, group. rewrite Hcaps.
  rewrite length_app, Nat.add_sub in Hst. done.
Qed.

Lemma shortening_erase rx :
  (forall prev rest st',
      match_at rx prev rest = Some st' ->
      0 < length rest - length (ms_rest st')) ->
  shortening (rx, literally []).
Proof.
  intros Hrx prev pos rest m Hm. cbn [fst snd] in *.
  destruct (search_at_parts _ _ _ _ _ Hm) as (pre & w & _ & _ & -> & Hst & _).
  apply Hrx in Hst. rewrite length_app, Nat.add_sub in Hst. done.
Qed.

Lemma markup_steps_shortening : Forall shortening markup_steps.
Proof.
  unfold markup_steps. repeat apply Forall_cons_2; try apply Forall_nil_2.
  - apply shortening_dollar1, norm_span_re_shorter.
  - apply shortening_erase, xref_re_shorter.
  - apply shortening_erase, anchor_re_shorter.
  - apply shortening_dollar1, bold_re_shorter.
  - apply shortening_dollar1, star_re_shorter.
  - apply shortening_dollar1, emph_re_shorter.
  - apply shortening_dollar1, code_re_shorter.
  - apply shortening_erase, footnote_re_shorter.
  - apply shortening_erase, attr_re_shorter.
  - apply shortening_erase, attrline_re_shorter.
Qed.

Lemma run_steps_length steps :
  Forall shortening steps ->
  forall s, length (run_steps steps s) <= length s.
Proof.
  induction 1 as [|[rx repl] steps Hstep _ IH]; intros s; [done|].
  unfold run_steps in *. rewrite fold_left_cons. cbn [fst snd].
  etransitivity; [apply IH|]. apply replace_g_length.
  intros prev pos rest m Hm. apply Hstep in Hm. cbn [fst snd] in Hm. lia.
Qed.

(** The steps shorten the text as soon as one of their patterns finds a
    match in it. *)
Lemma run_steps_shorter steps :
  Forall shortening steps ->
  forall s, Exists (fun step => search s (fst step) <> None) steps ->
            length (run_steps steps s) < length s.
Proof.
  induction 1 as [|[rx repl] steps Hstep Hsteps IH]; intros s Hex.
  - by apply Exists_nil in Hex.
  - unfold run_steps in *. rewrite fold_left_cons. cbn [fst snd].
    destruct (search s rx) as [i|] eqn:Hs.
    + eapply Nat.le_lt_trans; [by apply (run_steps_length steps)|].
      apply replace_g_shorter; [exact Hstep|by rewrite Hs].
    + rewrite replace_g_unmatched by done. apply IH.
      apply Exists_cons in Hex as [Hex|Hex]; [|done]. cbn [fst] in Hex. done.
Qed.

Lemma collapse_ws_length s : forall b, length (collapse_ws b s) <= length s.
Proof.
  induction s as [|x s IH]; intros b; cbn [collapse_ws]; [done|].
  pose proof (IH true). pose proof (IH false).
  destruct (is_space x); [destruct b|]; cbn [length]; lia.
Qed.

Lemma trimStart_length s : length (trimStart s) <= length s.
Proof.
  induction s as [|x s IH]; cbn [trimStart]; [done|].
  destruct (is_space x); cbn [length]; lia.
Qed.

Lemma trim_length s : length (trim s) <= length s.
Proof.
  unfold trim, trimEnd. rewrite length_rev.
  etransitivity; [apply trimStart_length|]. rewrite length_rev.
  apply trimStart_length.
Qed.

(** Cleaning shortens every text in which a markup pattern finds a match. *)
Lemma cleanAdocText_shorter t :
  ~ unmarked t -> length (cleanAdocText t) < length t.
Proof.
  intros Hmarked. rewrite cleanAdocText_steps.
  eapply Nat.le_lt_trans; [apply trim_length|].
  eapply Nat.le_lt_trans; [apply collapse_ws_length|].
  apply run_steps_shorter; [apply markup_steps_shortening|].
  destruct (decide (Exists (fun step => search t (fst step) <> None)
                      markup_steps)) as [Hex|Hno]; [exact Hex|].
  exfalso. apply Hmarked. unfold unmarked.
  change markup_patterns with (map fst markup_steps). apply Forall_fmap.
  apply not_Exists_Forall in Hno; [|intros step; apply _].
  eapply Forall_impl; [exact Hno|]. intros step Hs. cbn in Hs |- *.
  destruct (search t step.1); [by destruct Hs|done].
Qed.

(** C6, amended. Cleaning is idempotent at an input exactly when no markup
    pattern of the cleaner finds a match in its cleaned text; where one does,
    cleaning again gives shorter text. *)
Theorem C6_clean_idempotent_unmarked text :
  (cleanAdocText (cleanAdocText text) = cleanAdocText text
   <-> unmarked (cleanAdocText text))
  /\ (~ unmarked (cleanAdocText text) ->
      length (cleanAdocText (cleanAdocText text)) < length (cleanAdocText text)).
Proof.
  split; [split|apply cleanAdocText_shorter].
  - intros Hfixed.
    destruct (decide (unmarked (cleanAdocText text))) as [|Hmarked]; [done|].
    apply cleanAdocText_shorter in Hmarked. rewrite Hfixed in Hmarked. lia.
  - intros Hfree. rewrite (cleanAdocText_unmarked _ Hfree).
    destruct (cleanAdocText_shape text) as [z ->].
    rewrite single_spaced_fixed.
    + apply trim_idemp.
    + eapply single_spaced_trim, collapse_ws_single_spaced.
Qed.

Lemma C6_witness :
  cleanAdocText (cleanAdocText bits_sentence) = cleanAdocText bits_sentence.
Proof.
  apply (proj2 (proj1 (C6_clean_idempotent_unmarked bits_sentence))).
  unfold unmarked.
  set (t := cleanAdocText bits_sentence).
  vm_compute in t. subst t.
  repeat (constructor; [vm_compute; reflexivity|]). constructor.
Defined.

(** ** Further properties of the script *)

(** *** Files are parsed line by line *)

Lemma split_LF_app (a b : str) : forall cur,
  split_go [LF] 0 cur (a ++ LF :: b) =
  split_go [LF] 0 cur a ++ split_go [LF] 0 [] b.
Proof.
  induction a as [|x a IH]; intros cur.
  - cbn [app split_go startsWith length Nat.sub].
    by rewrite N.eqb_refl, startsWith_nil.
  - cbn [app split_go startsWith length Nat.sub].
    destruct (x =? LF)%N; cbn [andb]; [|apply IH].
    rewrite !startsWith_nil, IH. reflexivity.
Qed.

(** X1. An opcode file is parsed line by line: the instructions of two
    texts joined by a line feed are those of the first followed by those of
    the second, under the one extension tag. *)
Theorem parseOpcodeFile_app (a b extension : str) :
  parseOpcodeFile (a ++ [LF] ++ b) extension =
  parseOpcodeFile a extension ++ parseOpcodeFile b extension.
Proof.
  rewrite !parseOpcodeFile_lines. unfold split. cbn [app].
  by rewrite split_LF_app, map_app, concat_app.
Qed.

(** X2. The register table is parsed line by line as well. *)
Theorem parseCSVFile_app (a b : str) :
  parseCSVFile (a ++ [LF] ++ b) = parseCSVFile a ++ parseCSVFile b.
Proof.
  rewrite !parseCSVFile_lines. unfold split. cbn [app].
  by rewrite split_LF_app, map_app, concat_app.
Qed.

(** *** What the parsers put in a record *)

Lemma ms_skip_prev_cons prev x pre :
  ms_skip_prev prev (x :: pre) = ms_skip_prev (Some x) pre.
Proof. reflexivity. Qed.

Lemma ms_skip_prev_some pre : forall prev,
  pre <> [] -> ms_skip_prev prev pre <> None.
Proof.
  induction pre as [|x pre IH]; intros prev Hne; [done|].
  rewrite ms_skip_prev_cons. destruct pre as [|y pre]; [done|]. by apply IH.
Qed.

(** Where a search matched: after some prefix of the text, with the last
    character of that prefix before it. *)
Lemma search_at_inv_pos rx rest : forall prev pos m,
  search_at rx prev pos rest = Some m ->
  exists pre rest' st',
    rest = pre ++ rest'
    /\ match_at rx (ms_skip_prev prev pre) rest' = Some st'
    /\ m_caps m = ms_caps st'
    /\ m_index m = pos + length pre
    /\ m_text m = take (length rest' - length (ms_rest st')) rest'.
Proof.
  induction rest as [|x rest IH]; intros prev pos m; cbn [search_at].
  - destruct (match_at rx prev []) as [st'|] eqn:Hm; [|done].
    intros [= <-]. exists [], [], st'. cbn. repeat split; auto.
  - destruct (match_at rx prev (x :: rest)) as [st'|] eqn:Hm.
    + intros [= <-]. exists [], (x :: rest), st'. cbn. repeat split; auto.
    + intros (pre & rest' & st' & -> & Hst & Hcaps & Hidx & Htxt)%IH.
      exists (x :: pre), rest', st'. rewrite ms_skip_prev_cons.
      repeat split; auto. cbn [length]. lia.
Qed.

Lemma name_class_char x :
  cls_match true
    (CRanges false [rng "a" "z"; rng "0" "9"; rng "_" "_"; rng "." "."]) x = true ->
  is_name_char x = true.
Proof.
  unfold cls_match, in_ranges, is_name_char, is_word, swapcase.
  vm_compute rng. cbn [existsb fst snd xorb andb].
  change ((97 <=? x)%N && (x <=? 122)%N) with (is_lower x).
  change ((48 <=? x)%N && (x <=? 57)%N) with (is_digit x).
  destruct (is_upper x) eqn:Hu; [by rewrite !orb_true_r|].
  destruct (is_lower x) eqn:Hl; [by rewrite !orb_true_r|].
  unfold is_digit, is_lower, is_upper in *.
  destruct (N.eqb_spec x 95), (N.eqb_spec x 46); [by rewrite ?orb_true_r..|].
  destruct (N.leb_spec 48 x), (N.leb_spec x 57); cbn [andb orb]; try done;
    destruct (N.leb_spec 97 x), (N.leb_spec x 122); cbn [andb orb]; try done;
    destruct (N.leb_spec 95 x), (N.leb_spec x 95); cbn [andb orb]; try lia;
    destruct (N.leb_spec 46 x), (N.leb_spec x 46); cbn [andb orb]; try lia;
    done.
Qed.

(** A name that passes the mnemonic test is made of mnemonic characters. *)
Lemma name_re_test name :
  test name_re name = true ->
  name <> [] /\ Forall (fun x => is_name_char x = true) name.
Proof.
  unfold test, exec. intros [m Hm]%bool_decide_eq_true.
  apply search_at_inv_pos in Hm as (pre & rest' & st' & -> & Hst & _).
  unfold match_at in Hst. apply rmatch_sound in Hst as (st & Hst & [= <-]).
  eval_flags name_re. eval_body name_re. inv_matches.
  match goal with
  | H : matches _ _ (Rep 1 None _) _ _ |- _ =>
      apply matches_rep_cls in H as (w & Hw & Hall & Hlen & _ & _)
  end.
  match goal with
  | H : at_bol false _ = true |- _ =>
      unfold at_bol in H; cbn [ms_prev] in H;
      destruct (ms_skip_prev None pre) eqn:Hpre; [discriminate H|]
  end.
  assert (pre = []) as ->.
  { destruct pre as [|y pre]; [done|].
    by apply ms_skip_prev_some in Hpre. }
  match goal with
  | H : at_eol false _ = true |- _ =>
      unfold at_eol in H; destruct (ms_rest st) eqn:Hrest; [|discriminate H]
  end.
  cbn [ms_rest app] in *. rewrite app_nil_r in Hw. subst rest'.
  split.
  - destruct w; [simpl in Hlen; lia|done].
  - eapply Forall_impl; [exact Hall|]. intros y Hy. by apply name_class_char.
Qed.

(** What the directive pattern captures as the name. *)
Lemma pseudo_re_name s m :
  exec pseudo_re s = Some m ->
  group m 1 <> [] /\ Forall (fun x => is_word x = true) (group m 1).
Proof.
  unfold exec, group.
  intros (pre & rest' & st' & _ & Hst & -> & _)%search_at_inv_pos.
  unfold match_at in Hst. apply rmatch_sound in Hst as (st & Hst & [= <-]).
  eval_flags pseudo_re. eval_body pseudo_re. inv_matches.
  match goal with
  | H : matches _ _ (Rep 1 None (Cls CWord)) _ _ |- _ =>
      apply matches_rep_cls in H as (w & Hw & Hall & Hlen & _ & _)
  end.
  repeat match goal with
         | H : matches _ _ (Rep _ None (Cls _)) _ _ |- _ =>
             apply matches_rep_cls in H as (? & _ & _ & _ & ? & _)
         end.
  cbn [ms_caps ms_capture ms_step cap_lookup Nat.eqb] in *.
  repeat match goal with H : ms_caps _ = _ |- _ => rewrite H end.
  cbn [cap_lookup Nat.eqb]. rewrite (consumed_spec _ _ w) by done.
  split.
  - destruct w; [simpl in Hlen; lia|done].
  - exact Hall.
Qed.

Lemma opcodeLine_inv extension line instr :
  instr ∈ opcodeLine extension [] line ->
  (exists m operands encoding,
      exec pseudo_re (trim line) = Some m
      /\ instr = mkInstruction (group m 1) extension operands encoding [] TPseudo)
  \/ (exists name operands encoding,
      test name_re name = true /\ encoding <> []
      /\ instr = mkInstruction name extension operands encoding [] TInstruction).
Proof.
  unfold opcodeLine.
  destruct (_ || _); [by intros ?%elem_of_nil|].
  destruct (startsWith (trim line) (u "$pseudo_op")).
  - destruct (exec pseudo_re (trim line)) as [m|]; [|by intros ?%elem_of_nil].
    destruct (parseEncodingLine (group m 2)) as [operands encoding].
    intros ->%list_elem_of_singleton. left. eauto.
  - destruct (startsWith (trim line) (u "$import")); [by intros ?%elem_of_nil|].
    destruct (_ <? 2)%nat; [by intros ?%elem_of_nil|].
    destruct (test name_re _) eqn:Htest; [|by intros ?%elem_of_nil].
    destruct (parseEncodingLine _) as [operands encoding]. cbn [negb].
    destruct (0 <? length encoding)%nat eqn:Hlen; [|by intros ?%elem_of_nil].
    intros ->%list_elem_of_singleton. right.
    eexists _, _, _. split; [exact Htest|]. split; [|done].
    by destruct encoding.
Qed.

Lemma parseOpcodeFile_inv content extension instr :
  instr ∈ parseOpcodeFile content extension ->
  exists line, instr ∈ opcodeLine extension [] line.
Proof.
  rewrite parseOpcodeFile_lines.
  intros (l & Hl & Hin)%list_elem_of_In%in_concat.
  apply in_map_iff in Hl as (line & <- & _).
  exists line. by apply list_elem_of_In.
Qed.

(** X3. Every record the opcode parser returns carries the extension tag it
    was given and an empty description, is an instruction or a pseudo
    instruction, never a CSR, and has a name that is not empty: a name of
    letters, digits, [_] and [.] for an instruction, of letters, digits and
    [_] for a pseudo instruction. *)
Theorem parseOpcodeFile_records content extension instr :
  instr ∈ parseOpcodeFile content extension ->
  i_extension instr = extension
  /\ i_description instr = []
  /\ i_type instr <> TCsr
  /\ i_name instr <> []
  /\ Forall (fun x => is_name_char x = true) (i_name instr)
  /\ (i_type instr = TPseudo -> Forall (fun x => is_word x = true) (i_name instr)).
Proof.
  intros (line & Hin)%parseOpcodeFile_inv.
  apply opcodeLine_inv in Hin
    as [(m & ops & enc & Hm & ->)|(name & ops & enc & Htest & Henc & ->)];
    cbn [i_extension i_description i_type i_name].
  - destruct (pseudo_re_name _ _ Hm) as [Hne Hall].
    repeat split; try done.
    eapply Forall_impl; [exact Hall|]. intros x Hx.
    unfold is_name_char. by rewrite Hx.
  - destruct (name_re_test _ Htest) as [Hne Hall].
    repeat split; done.
Qed.

Lemma parseOpcodeFile_records_witness :
  i_extension (mkInstruction (u "c.addi") (u "rv_c") [u "rd"]
                 [mkBitField (Int 1) (Int 0) (VNumber (Int 1))] [] TInstruction) =
  u "rv_c".
Proof.
  apply (parseOpcodeFile_records
           (u "# compressed" ++ [LF] ++ u "c.addi rd 1..0=1") (u "rv_c")).
  vm_compute. apply list_elem_of_here.
Defined.

(** What the record pattern captures as the name. *)
Lemma csv_re_name s m :
  exec csv_re s = Some m ->
  group m 2 <> [] /\ DQUOTE ∉ group m 2.
Proof.
  unfold exec, group.
  intros (pre & rest' & st' & _ & Hst & -> & _)%search_at_inv_pos.
  unfold match_at in Hst. apply rmatch_sound in Hst as (st & Hst & [= <-]).
  eval_flags csv_re. eval_body csv_re. inv_matches.
  match goal with
  | H : matches _ _ (Rep 1 None (Cls (CRanges true _))) _ _ |- _ =>
      apply matches_rep_cls in H as (w & Hw & Hall & Hlen & _ & _)
  end.
  cbn [ms_caps ms_capture ms_step cap_lookup Nat.eqb] in *.
  rewrite (consumed_spec _ _ w) by done.
  split.
  - destruct w; [simpl in Hlen; lia|done].
  - intros Hin. eapply Forall_forall in Hall; [|exact Hin]. discriminate Hall.
Qed.

Lemma privilegeOf_tier addr : privilegeOf addr ∈ tiers.
Proof.
  unfold privilegeOf, tiers.
  repeat match goal with
         | |- context [if ?b then _ else _] => destruct b
         end;
    repeat first [apply list_elem_of_here | apply list_elem_of_further].
Qed.

(** X4. Every record the register-table parser returns has an empty
    description, one of the four tiers U, S, H, M as its privilege, and a
    name that is not empty and holds no double quote. *)
Theorem parseCSVFile_records content c :
  c ∈ parseCSVFile content ->
  c_description c = []
  /\ c_privilege c ∈ tiers
  /\ c_name c <> []
  /\ DQUOTE ∉ c_name c.
Proof.
  rewrite parseCSVFile_lines.
  intros (l & Hl & Hin)%list_elem_of_In%in_concat.
  apply in_map_iff in Hl as (line & <- & _).
  apply list_elem_of_In, csvLine_inv in Hin as (m & Hm & ->).
  cbn [c_description c_privilege c_name].
  destruct (csv_re_name _ _ Hm) as [Hne Hq].
  repeat split; try done. apply privilegeOf_tier.
Qed.

Lemma parseCSVFile_records_witness :
  c_privilege (mkCSR (u "mtvec") (u "0x305") (u "M") []) ∈ tiers.
Proof.
  apply (parseCSVFile_records (u "0x305, " ++ [DQUOTE] ++ u "mtvec" ++ [DQUOTE])).
  vm_compute. apply list_elem_of_here.
Defined.

(** *** The encoding-line grammar, token by token *)

Lemma range_re_digits s m :
  exec range_re s = Some m ->
  (group m 1 <> [] /\ Forall (fun x => is_dec x = true) (group m 1))
  /\ (group m 2 <> [] /\ Forall (fun x => is_dec x = true) (group m 2)).
Proof.
  unfold exec, group.
  intros (pre & rest' & st' & _ & Hst & -> & _)%search_at_inv_pos.
  unfold match_at in Hst. apply rmatch_sound in Hst as (st & Hst & [= <-]).
  eval_flags range_re. eval_body range_re. inv_matches.
  match goal with
  | H : matches _ _ (Rep 1 None (Cls CDigit)) (MState _ _ []) _ |- _ =>
      apply matches_rep_cls in H as (hs & Hhs & Hhall & Hhlen & Hhcaps & _)
  end.
  match goal with
  | H : matches _ _ (Rep 1 None (Cls CDigit)) _ _ |- _ =>
      apply matches_rep_cls in H as (ls & Hls & Hlall & Hllen & Hlcaps & _)
  end.
  match goal with
  | H : matches _ _ (Rep 1 None (Cls CDot)) _ _ |- _ =>
      apply matches_rep_cls in H as (v & _ & _ & _ & Hvcaps & _)
  end.
  cbn [ms_caps ms_capture ms_step cap_lookup Nat.eqb] in *.
  rewrite Hvcaps. cbn [cap_lookup Nat.eqb].
  rewrite (consumed_spec _ _ ls) by done. rewrite Hlcaps.
  cbn [cap_lookup Nat.eqb]. rewrite (consumed_spec _ _ hs) by done.
  repeat split; try done.
  - destruct hs; [simpl in Hhlen; lia|done].
  - destruct ls; [simpl in Hllen; lia|done].
Qed.

Lemma single_re_digits s m :
  exec single_re s = Some m ->
  group m 1 <> [] /\ Forall (fun x => is_dec x = true) (group m 1).
Proof.
  unfold exec, group.
  intros (pre & rest' & st' & _ & Hst & -> & _)%search_at_inv_pos.
  unfold match_at in Hst. apply rmatch_sound in Hst as (st & Hst & [= <-]).
  eval_flags single_re. eval_body single_re. inv_matches.
  match goal with
  | H : matches _ _ (Rep 1 None (Cls CDigit)) _ _ |- _ =>
      apply matches_rep_cls in H as (bs & Hbs & Hball & Hblen & Hbcaps & _)
  end.
  match goal with
  | H : matches _ _ (Rep 1 None (Cls CDot)) _ _ |- _ =>
      apply matches_rep_cls in H as (v & _ & _ & _ & Hvcaps & _)
  end.
  cbn [ms_caps ms_capture ms_step cap_lookup Nat.eqb] in *.
  rewrite Hvcaps. cbn [cap_lookup Nat.eqb].
  rewrite (consumed_spec _ _ bs) by done.
  split; [|done]. destruct bs; [simpl in Hblen; lia|done].
Qed.

(** What one token adds: itself to the operands when it is a known operand,
    and otherwise at most one bit field, well read. *)
Lemma encodingPart_spec operands encoding part :
  exists fields,
    encodingPart (operands, encoding) part =
      (operands ++ (if has_operand part then [part] else []), encoding ++ fields)
    /\ length fields <= (if has_operand part then 0 else 1)
    /\ Forall well_read fields.
Proof.
  unfold encodingPart. destruct (has_operand part).
  - exists []. rewrite !app_nil_r. repeat split; auto.
  - destruct (exec range_re part) as [m|] eqn:Hm.
    + destruct (range_re_digits _ _ Hm) as [[Hh0 Hh] [Hl0 Hl]].
      exists [mkBitField (parseInt (group m 1) None) (parseInt (group m 2) None)
                (VNumber (field_number (group m 3)))].
      rewrite app_nil_r. split; [reflexivity|]. split; [done|].
      repeat constructor; cbn [bf_high bf_low bf_value]; [|eauto].
      rewrite !parseInt_dec by done. eauto.
    + destruct (exec single_re part) as [m|] eqn:Hs.
      * destruct (single_re_digits _ _ Hs) as [Hb0 Hb].
        exists [mkBitField (parseInt (group m 1) None) (parseInt (group m 1) None)
                  (VNumber (field_number (group m 2)))].
        rewrite app_nil_r. split; [reflexivity|]. split; [done|].
        repeat constructor; cbn [bf_high bf_low bf_value]; [|eauto].
        rewrite !parseInt_dec by done. eauto.
      * exists []. rewrite !app_nil_r. repeat split; auto.
Qed.

Lemma encoding_fold parts : forall operands encoding,
  exists fields,
    fold_left encodingPart parts (operands, encoding) =
      (operands ++ filter (fun p => has_operand p = true) parts,
       encoding ++ fields)
    /\ length fields <= length (filter (fun p => has_operand p = false) parts)
    /\ Forall well_read fields.
Proof.
  induction parts as [|part parts IH]; intros operands encoding.
  - exists []. rewrite !app_nil_r. repeat split; auto.
  - rewrite fold_left_cons.
    destruct (encodingPart_spec operands encoding part)
      as (f1 & -> & Hlen1 & Hwr1).
    destruct (IH (operands ++ (if has_operand part then [part] else []))
                (encoding ++ f1)) as (f2 & -> & Hlen2 & Hwr2).
    exists (f1 ++ f2). rewrite !filter_cons, <- !app_assoc.
    destruct (has_operand part) eqn:Hop.
    + rewrite decide_True, decide_False by done.
      split; [reflexivity|split; [|by apply Forall_app]].
      rewrite length_app. simpl in *. lia.
    + rewrite decide_False, decide_True by done.
      split; [reflexivity|split; [|by apply Forall_app]].
      rewrite length_app. simpl in *. lia.
Qed.

(** X5. The operands of an encoding line are exactly its tokens that are
    known operand names, in the order of the line and with repetitions kept;
    the other tokens yield at most one bit field each. *)
Theorem parseEncodingLine_operands line :
  (parseEncodingLine line).1 =
    filter (fun p => has_operand p = true) (split_re line ws_re)
  /\ length (parseEncodingLine line).2 <=
     length (filter (fun p => has_operand p = false) (split_re line ws_re)).
Proof.
  unfold parseEncodingLine.
  destruct (encoding_fold (split_re line ws_re) [] []) as (fields & -> & Hlen & _).
  done.
Qed.

(** X6. Every bit field of an encoding line has bounds read from decimal
    digits, so that [high] and [low] are never NaN and never negative, and a
    value that is a number, never a string. *)
Theorem parseEncodingLine_fields line :
  Forall well_read (parseEncodingLine line).2.
Proof.
  unfold parseEncodingLine.
  destruct (encoding_fold (split_re line ws_re) [] []) as (fields & -> & _ & Hwr).
  done.
Qed.

(** *** The description maps only grow *)

Lemma toLowerCase_idemp s : toLowerCase (toLowerCase s) = toLowerCase s.
Proof.
  unfold toLowerCase. rewrite map_map. apply map_ext. intros x.
  destruct (is_upper x) eqn:Hx; [|by rewrite Hx].
  unfold is_upper in *.
  apply andb_true_iff in Hx as [H1%N.leb_le H2%N.leb_le].
  rewrite (proj2 (N.leb_gt (x + 32) 90)) by lia. by rewrite andb_false_r.
Qed.

Lemma extends_refl d : extends d d.
Proof. intros k. split; auto. Qed.

Lemma extends_trans d1 d2 d3 : extends d1 d2 -> extends d2 d3 -> extends d1 d3.
Proof.
  intros H12 H23 k. destruct (H12 k) as [Ha Hb], (H23 k) as [Hc Hd].
  split; [auto|]. intros [H|H]%Hd; auto.
Qed.

Lemma extends_insert d g v : extends d (<[toLowerCase g := v]> d).
Proof.
  intros k. destruct (decide (toLowerCase g = k)) as [<-|Hne].
  - rewrite lookup_insert_eq. split; [eauto|]. intros _. right.
    apply toLowerCase_idemp.
  - rewrite lookup_insert_ne by done. split; auto.
Qed.

Lemma extends_fold {A} (step : gmap str str -> A -> gmap str str) ms :
  (forall d m, extends d (step d m)) ->
  forall d, extends d (fold_left step ms d).
Proof.
  intros Hstep. induction ms as [|m ms IH]; intros d.
  - apply extends_refl.
  - rewrite fold_left_cons. eapply extends_trans; [apply Hstep|apply IH].
Qed.

Ltac extends_step :=
  repeat match goal with
         | |- extends ?d ?d => apply extends_refl
         | |- extends _ (insert _ _ _) => apply extends_insert
         | |- context [if ?b then _ else _] => destruct b
         | |- context [match ?o with Some _ => _ | None => _ end] => destruct o
         end.

Lemma normStep_extends d m : extends d (normStep d m).
Proof. unfold normStep. extends_step. Qed.

Lemma sectionStep_extends content d m : extends d (sectionStep content d m).
Proof. unfold sectionStep. extends_step. Qed.

Lemma proseStep_extends d m : extends d (proseStep d m).
Proof. unfold proseStep. extends_step. Qed.

Lemma csrSectionStep_extends content d m : extends d (csrSectionStep content d m).
Proof. unfold csrSectionStep. extends_step. Qed.

Lemma csrProseStep_extends d m : extends d (csrProseStep d m).
Proof. unfold csrProseStep. extends_step. Qed.

Lemma extractFile_extends maps content :
  extends maps.1 (extractFile maps content).1
  /\ extends maps.2 (extractFile maps content).2.
Proof.
  destruct maps as [d c]. unfold extractFile. cbn [fst snd].
  unfold prosePass, sectionPass, normPass, csrProsePass, csrSectionPass. split.
  - eapply extends_trans; [|apply extends_fold, proseStep_extends].
    eapply extends_trans; [|apply extends_fold, sectionStep_extends].
    apply extends_fold, normStep_extends.
  - eapply extends_trans; [|apply extends_fold, csrProseStep_extends].
    apply extends_fold, csrSectionStep_extends.
Qed.

Lemma extractFiles_extends files : forall maps,
  extends maps.1 (fold_left extractFile files maps).1
  /\ extends maps.2 (fold_left extractFile files maps).2.
Proof.
  induction files as [|content files IH]; intros maps.
  - split; apply extends_refl.
  - rewrite fold_left_cons.
    destruct (extractFile_extends maps content) as [H1 H2].
    destruct (IH (extractFile maps content)) as [H3 H4].
    split; eapply extends_trans; eauto.
Qed.

(** X7. Scanning a document never removes a key from either description
    map: a name documented before the document is documented after it. *)
Theorem extractFile_keeps_keys maps content k :
  (is_Some (maps.1 !! k) -> is_Some ((extractFile maps content).1 !! k))
  /\ (is_Some (maps.2 !! k) -> is_Some ((extractFile maps content).2 !! k)).
Proof.
  destruct (extractFile_extends maps content) as [H1 H2].
  split; [apply H1|apply H2].
Qed.

Lemma extractFile_keeps_keys_witness :
  is_Some ((extractFile ({[ u "sub" := u "SUB subtracts." ]}, ∅) add_both).1
             !! u "sub").
Proof.
  refine (proj1 (extractFile_keeps_keys
                   ({[ u "sub" := u "SUB subtracts." ]}, ∅) add_both (u "sub")) _).
  vm_compute. eauto.
Defined.

(** X8. Every key of the two maps that the extraction returns is in lower
    case, which is how [main] looks the names up. *)
Theorem extracted_keys_lower_case files k :
  is_Some ((extractDescriptionsFromAdoc files).1 !! k)
  \/ is_Some ((extractDescriptionsFromAdoc files).2 !! k) ->
  toLowerCase k = k.
Proof.
  unfold extractDescriptionsFromAdoc.
  destruct (extractFiles_extends files (∅, ∅)) as [H1 H2]. cbn [fst snd] in *.
  intros [H|H]; [apply H1 in H|apply H2 in H];
    (destruct H as [H|H]; [|done]); rewrite lookup_empty in H;
    by destruct H.
Qed.

Lemma extracted_keys_lower_case_witness : toLowerCase (u "add") = u "add".
Proof.
  refine (extracted_keys_lower_case [add_normative] (u "add") _).
  left. vm_compute. eauto.
Defined.

(** *** Which scans may change an entry *)

Lemma csrProseStep_lookup d m n :
  is_Some (d !! n) -> csrProseStep d m !! n = d !! n.
Proof.
  intros Hsome. unfold csrProseStep.
  destruct (decide (toLowerCase (group m 1) = n)) as [Hn|Hn].
  - rewrite Hn. unfold has. rewrite bool_decide_eq_true_2 by done.
    by rewrite andb_false_r.
  - destruct (_ && _); [|done]. by rewrite lookup_insert_ne.
Qed.

Lemma csrProsePass_lookup n ms : forall d,
  is_Some (d !! n) -> fold_left csrProseStep ms d !! n = d !! n.
Proof.
  induction ms as [|m ms IH]; intros d Hsome; [done|].
  rewrite fold_left_cons.
  rewrite IH; [by apply csrProseStep_lookup|]. by rewrite csrProseStep_lookup.
Qed.

(** X9. The two prose scans fill gaps only: an entry that exists when the
    instruction prose scan or the inline CSR scan starts is the entry when it
    ends. *)
Theorem prose_scans_keep_entries (content : str) (d : gmap str str) (k : str) :
  is_Some (d !! k) ->
  prosePass content d !! k = d !! k
  /\ csrProsePass content d !! k = d !! k.
Proof.
  intros Hsome. split.
  - by apply prosePass_lookup.
  - by apply csrProsePass_lookup.
Qed.

Lemma prose_scans_keep_entries_witness :
  prosePass (u "The ADD instruction performs the addition of rs1 and rs2.")
    {[ u "add" := u "kept" ]} !! u "add" =
  ({[ u "add" := u "kept" ]} : gmap str str) !! u "add".
Proof.
  refine (proj1 (prose_scans_keep_entries
                   (u "The ADD instruction performs the addition of rs1 and rs2.")
                   {[ u "add" := u "kept" ]} (u "add") _)).
  vm_compute. eauto.
Defined.

Lemma never_shorter_refl d : never_shorter d d.
Proof. intros k e He. eauto. Qed.

Lemma never_shorter_trans d1 d2 d3 :
  never_shorter d1 d2 -> never_shorter d2 d3 -> never_shorter d1 d3.
Proof.
  intros H12 H23 k e He.
  destruct (H12 k e He) as (e2 & He2 & Hle2).
  destruct (H23 k e2 He2) as (e3 & He3 & Hle3).
  exists e3. split; [done|lia].
Qed.

Lemma never_shorter_fold {A} (step : gmap str str -> A -> gmap str str) ms :
  (forall d m, never_shorter d (step d m)) ->
  forall d, never_shorter d (fold_left step ms d).
Proof.
  intros Hstep. induction ms as [|m ms IH]; intros d.
  - apply never_shorter_refl.
  - rewrite fold_left_cons.
    eapply never_shorter_trans; [apply Hstep|apply IH].
Qed.

Lemma normStep_never_shorter d m : never_shorter d (normStep d m).
Proof.
  intros k e He. rewrite normStep_lookup, He.
  destruct (decide (kept_for k m)); [|eauto].
  unfold accumulate. cbn [fold_left].
  destruct e as [|x e]; eexists; (split; [reflexivity|]).
  - simpl. lia.
  - rewrite length_app. lia.
Qed.

Lemma sectionStep_never_shorter content d m :
  never_shorter d (sectionStep content d m).
Proof.
  intros k e He. unfold sectionStep.
  set (name := toLowerCase (group m 2)).
  set (combined := join (u " ") _).
  destruct (decide (name = k)) as [Hk|Hk].
  - subst k. unfold has. rewrite He. rewrite bool_decide_eq_true_2 by eauto.
    cbn [negb orb default from_option]. unfold id.
    destruct (0 <? _)%nat.
    + destruct (length e <? length combined)%nat eqn:Hlen.
      * apply Nat.ltb_lt in Hlen. rewrite lookup_insert_eq. eexists. split; [done|lia].
      * eauto.
    + destruct (firstParagraph _); eauto.
  - repeat match goal with
           | |- context [if ?b then _ else _] => destruct b
           | |- context [match ?o with Some _ => _ | None => _ end] => destruct o
           end; rewrite ?lookup_insert_ne by done; eauto.
Qed.

Lemma proseStep_never_shorter d m : never_shorter d (proseStep d m).
Proof.
  intros k e He. rewrite proseStep_lookup by eauto. eauto.
Qed.

Lemma extractFile_never_shorter maps content :
  never_shorter maps.1 (extractFile maps content).1.
Proof.
  destruct maps as [d c]. unfold extractFile. cbn [fst].
  unfold prosePass, sectionPass, normPass.
  eapply never_shorter_trans; [|apply never_shorter_fold, proseStep_never_shorter].
  eapply never_shorter_trans; [|apply never_shorter_fold, sectionStep_never_shorter].
  apply never_shorter_fold, normStep_never_shorter.
Qed.

Lemma extractFiles_never_shorter files : forall maps,
  never_shorter maps.1 (fold_left extractFile files maps).1.
Proof.
  induction files as [|content files IH]; intros maps.
  - apply never_shorter_refl.
  - rewrite fold_left_cons.
    eapply never_shorter_trans; [apply extractFile_never_shorter|apply IH].
Qed.

(** X10. An instruction description never gets shorter as more documents
    are scanned: whatever the documents read so far have given a name, the
    description after further documents is at least as long. *)
Theorem instruction_descriptions_never_shorter files more k e :
  (extractDescriptionsFromAdoc files).1 !! k = Some e ->
  exists e',
    (extractDescriptionsFromAdoc (files ++ more)).1 !! k = Some e'
    /\ length e <= length e'.
Proof.
  unfold extractDescriptionsFromAdoc. rewrite fold_left_app.
  apply extractFiles_never_shorter.
Qed.

Lemma instruction_descriptions_never_shorter_witness :
  exists e',
    (extractDescriptionsFromAdoc ([add_normative] ++ [add_both])).1 !! u "add" =
      Some e'
    /\ length (u "ADD performs integer addition.") <= length e'.
Proof.
  refine (instruction_descriptions_never_shorter [add_normative] [add_both]
            (u "add") (u "ADD performs integer addition.") _).
  vm_compute. reflexivity.
Defined.

Lemma accumulate_prefix texts : forall e,
  e <> [] -> exists rest, accumulate (Some e) texts = Some (e ++ rest).
Proof.
  induction texts as [|t texts IH]; intros e He.
  - exists []. by rewrite app_nil_r.
  - unfold accumulate in *. cbn [fold_left].
    destruct e as [|x e]; [done|].
    destruct (IH ((x :: e) ++ u " " ++ t)) as [rest ->]; [done|].
    exists (u " " ++ t ++ rest). by rewrite <- !app_assoc.
Qed.

(** X11. The normative-anchor scan only appends: an entry that is not empty
    when the scan of a document starts is a prefix of the entry when it
    ends. *)
Theorem normPass_appends (content : str) (d : gmap str str) (k e : str) :
  d !! k = Some e -> e <> [] ->
  exists rest, normPass content d !! k = Some (e ++ rest).
Proof.
  intros He Hne. unfold normPass. rewrite normPass_lookup, He.
  by apply accumulate_prefix.
Qed.

Lemma normPass_appends_witness :
  exists rest,
    normPass add_normative {[ u "add" := u "ADD adds." ]} !! u "add" =
    Some (u "ADD adds." ++ rest).
Proof.
  refine (normPass_appends add_normative {[ u "add" := u "ADD adds." ]}
            (u "add") (u "ADD adds.") _ _).
  - vm_compute. reflexivity.
  - discriminate.
Defined.

(** *** The assembled dataset *)

Lemma attachInstr_idemp lower d i :
  attachInstr lower d (attachInstr lower d i) = attachInstr lower d i.
Proof.
  unfold attachInstr at 2.
  destruct (d !! lower (i_name i)) as [[|x desc]|] eqn:Hd;
    unfold attachInstr; cbn [i_name]; by rewrite Hd.
Qed.

Lemma attachCSR_idemp lower d c :
  attachCSR lower d (attachCSR lower d c) = attachCSR lower d c.
Proof.
  unfold attachCSR at 2.
  destruct (d !! lower (c_name c)) as [[|x desc]|] eqn:Hd;
    unfold attachCSR; cbn [c_name]; by rewrite Hd.
Qed.

Lemma firsts_sublist l : forall taken, sublist (firsts taken l) l.
Proof.
  induction l as [|x l IH]; intros taken; cbn [firsts]; [constructor|].
  case_bool_decide.
  - apply sublist_cons, IH.
  - apply sublist_skip, IH.
Qed.

Lemma firsts_id l : forall taken,
  NoDup (map i_name l) -> (forall x, x ∈ l -> i_name x ∉ taken) ->
  firsts taken l = l.
Proof.
  induction l as [|x l IH]; intros taken Hnd Hfresh; cbn [firsts]; [done|].
  cbn [map] in Hnd. apply NoDup_cons in Hnd as [Hx Hnd].
  rewrite bool_decide_eq_false_2 by (apply Hfresh; left).
  f_equal. apply IH; [done|].
  intros y Hy Hin. apply elem_of_cons in Hin as [Heq|Hin].
  - apply Hx. rewrite <- Heq. by apply (list_elem_of_fmap_2 i_name).
  - apply (Hfresh y); [by right|done].
Qed.

Lemma firsts_names l : forall taken n,
  n ∈ map i_name l -> n ∉ taken -> n ∈ map i_name (firsts taken l).
Proof.
  induction l as [|x l IH]; intros taken n; cbn [firsts map]; [done|].
  intros [->|Hin]%elem_of_cons Hn.
  - rewrite bool_decide_eq_false_2 by done. left.
  - case_bool_decide as Hx; [by apply IH|].
    destruct (decide (n = i_name x)) as [->|Hne]; [left|].
    right. apply IH; [done|]. by intros [?|?]%elem_of_cons.
Qed.

Lemma map_fixed {A} (f : A -> A) (l : list A) :
  (forall x, x ∈ l -> f x = x) -> map f l = l.
Proof.
  induction l as [|x l IH]; intros Hf; cbn [map]; [done|].
  rewrite Hf by left. f_equal. apply IH. intros y Hy. apply Hf. by right.
Qed.

(** X12. Assembling is idempotent: fed its own instructions and CSRs with
    the same description maps, [main]'s merge and deduplication return the
    dataset unchanged. *)
Theorem assemble_idempotent lower instructions csrs descriptions :
  let ds := assemble lower instructions csrs descriptions in
  assemble lower (d_instructions ds) (d_csrs ds) descriptions = ds.
Proof.
  destruct descriptions as [instrDescriptions csrDescriptions].
  cbn [assemble d_instructions d_csrs]. f_equal.
  - rewrite !dedupInstructions_firsts.
    set (l := map (attachInstr lower instrDescriptions) instructions).
    assert (map (attachInstr lower instrDescriptions) (firsts [] l) = firsts [] l)
      as ->.
    { apply map_fixed. intros x Hx.
      apply (fun H => elem_of_sublist _ _ _ H (firsts_sublist l [])) in Hx.
      apply list_elem_of_fmap in Hx as (i & -> & _). apply attachInstr_idemp. }
    apply firsts_id; [apply firsts_NoDup|]. intros x _. apply not_elem_of_nil.
  - rewrite map_map. apply map_ext. intros c. apply attachCSR_idemp.
Qed.

(** X13. CSRs are merged but never deduplicated or reordered: the dataset
    lists the names, addresses and privileges of the parsed CSRs as they
    came, one record for each. *)
Theorem csrs_not_deduplicated lower instructions csrs descriptions :
  let ds := assemble lower instructions csrs descriptions in
  map c_name (d_csrs ds) = map c_name csrs
  /\ map c_address (d_csrs ds) = map c_address csrs
  /\ map c_privilege (d_csrs ds) = map c_privilege csrs.
Proof.
  destruct descriptions as [instrDescriptions csrDescriptions].
  cbn [assemble d_csrs]. rewrite !map_map.
  repeat split; apply map_ext; intros c; unfold attachCSR;
    by repeat case_match.
Qed.

(** X14. Deduplication is stable and loses no name: the instructions of the
    dataset are a subsequence of the merged input, and a name occurs in the
    dataset exactly when it occurs in the input. *)
Theorem dedup_stable lower instructions csrs descriptions :
  let ds := assemble lower instructions csrs descriptions in
  sublist (d_instructions ds)
    (map (attachInstr lower descriptions.1) instructions)
  /\ forall n, n ∈ map i_name (d_instructions ds) <-> n ∈ map i_name instructions.
Proof.
  destruct descriptions as [instrDescriptions csrDescriptions].
  cbn [assemble d_instructions fst]. rewrite dedupInstructions_firsts.
  set (l := map (attachInstr lower instrDescriptions) instructions).
  assert (map i_name l = map i_name instructions) as Hnames.
  { subst l. rewrite map_map. apply map_ext. intros i. apply attachInstr_name. }
  split; [apply firsts_sublist|]. intros n. rewrite <- Hnames. split.
  - intros Hn. eapply elem_of_sublist; [exact Hn|].
    apply (fmap_sublist i_name), firsts_sublist.
  - intros Hn. apply firsts_names; [done|apply not_elem_of_nil].
Qed.

(** *** Case conversion in the merge *)

Lemma name_char_ascii x : is_name_char x = true -> is_ascii x = true.
Proof.
  unfold is_name_char, is_word, is_digit, is_upper, is_lower, is_ascii.
  intros H. apply N.ltb_lt.
  repeat (apply orb_true_iff in H as [H|H]);
    try (apply andb_true_iff in H as [_ H%N.leb_le]; lia);
    apply N.eqb_eq in H; lia.
Qed.

Lemma parsed_name_ascii content extension instr :
  instr ∈ parseOpcodeFile content extension ->
  Forall (fun x => is_ascii x = true) (i_name instr).
Proof.
  intros (line & Hin)%parseOpcodeFile_inv.
  apply opcodeLine_inv in Hin
    as [(m & ops & enc & Hm & ->)|(name & ops & enc & Htest & Henc & ->)];
    cbn [i_name].
  - destruct (pseudo_re_name _ _ Hm) as [_ Hall].
    eapply Forall_impl; [exact Hall|]. intros x Hx.
    apply name_char_ascii. unfold is_name_char. by rewrite Hx.
  - destruct (name_re_test _ Htest) as [_ Hall].
    eapply Forall_impl; [exact Hall|]. intros x. apply name_char_ascii.
Qed.

(** X17. On the records of the opcode parser the merge looks a description
    up under the ASCII lower-casing of the name: their names are ASCII, so
    any case conversion that is right on ASCII text gives the same record. *)
Theorem attachInstr_parsed lower content extension d instr :
  lowers_ascii lower ->
  instr ∈ parseOpcodeFile content extension ->
  attachInstr lower d instr = attachInstr toLowerCase d instr.
Proof.
  intros Hlower Hin. unfold attachInstr.
  by rewrite (Hlower _ (parsed_name_ascii _ _ _ Hin)).
Qed.

Lemma attachInstr_parsed_witness :
  attachInstr lower_kelvin {[ u "c.addi" := u "Adds an immediate." ]}
    (mkInstruction (u "C.ADDI") (u "rv_c") [u "rd"]
       [mkBitField (Int 1) (Int 0) (VNumber (Int 1))] [] TInstruction) =
  mkInstruction (u "C.ADDI") (u "rv_c") [u "rd"]
    [mkBitField (Int 1) (Int 0) (VNumber (Int 1))] (u "Adds an immediate.")
    TInstruction.
Proof.
  rewrite (attachInstr_parsed lower_kelvin
             (u "# compressed" ++ [LF] ++ u "C.ADDI rd 1..0=1") (u "rv_c")).
  - reflexivity.
  - intros s Hs. unfold lower_kelvin, toLowerCase.
    induction Hs as [|x s Hx _ IH]; [done|]. cbn [map]. rewrite IH. f_equal.
    destruct (is_upper x); [done|].
    unfold is_ascii in Hx. apply N.ltb_lt in Hx.
    by rewrite (proj2 (N.eqb_neq x 8490)) by lia.
  - vm_compute. apply list_elem_of_here.
Defined.

(** *** The shape of cleaned text *)

Lemma single_spaced_spaces s : forall b x,
  single_spaced b s = true -> x ∈ s -> is_space x = true -> x = 32%N.
Proof.
  induction s as [|y s IH]; intros b x; cbn [single_spaced];
    [by intros _ ?%elem_of_nil|].
  destruct (is_space y) eqn:Hy.
  - intros [[Hy32%N.eqb_eq _]%andb_true_iff Hs]%andb_true_iff
           [->|Hin]%elem_of_cons Hx; [done|by eapply IH].
  - intros Hs [->|Hin]%elem_of_cons Hx; [congruence|by eapply IH].
Qed.

Lemma trim_head s : head_not_space (trim s).
Proof.
  unfold trim. apply trimEnd_head.
  by destruct (trimStart_decomp s) as (_ & _ & _ & ?).
Qed.

Lemma trim_last s : head_not_space (rev (trim s)).
Proof.
  unfold trim, trimEnd. rewrite rev_involutive.
  by destruct (trimStart_decomp (rev (trimStart s))) as (_ & _ & _ & ?).
Qed.

Lemma trim_fixed s :
  head_not_space s -> head_not_space (rev s) -> trim s = s.
Proof.
  intros Hh Hl. unfold trim, trimEnd.
  by rewrite (trimStart_fixed s Hh), (trimStart_fixed _ Hl), rev_involutive.
Qed.

(** X15. Whatever the input, cleaned text begins and ends with a character
    that is not white space, and white space occurs in it only as single
    spaces: no tab, no line break, no two spaces in a row. *)
Theorem cleanAdocText_normal text :
  head_not_space (cleanAdocText text)
  /\ head_not_space (rev (cleanAdocText text))
  /\ single_spaced false (cleanAdocText text) = true
  /\ (forall x, x ∈ cleanAdocText text -> is_space x = true -> x = 32%N).
Proof.
  destruct (cleanAdocText_shape text) as [z ->].
  assert (single_spaced false (trim (collapse_ws false z)) = true) as Hss
      by (eapply single_spaced_trim, collapse_ws_single_spaced).
  split; [apply trim_head|split; [apply trim_last|split; [done|]]].
  intros x. by apply (single_spaced_spaces _ false).
Qed.

(** X16. Text without markup characters is only normalised: cleaning it
    trims it and collapses its white space, and leaves it as it is when it is
    already trimmed and single spaced. *)
Theorem cleanAdocText_plain_text y :
  Forall (fun x => is_markup x = false) y ->
  cleanAdocText y = trim (collapse_ws false y)
  /\ (single_spaced false y = true -> head_not_space y ->
      head_not_space (rev y) -> cleanAdocText y = y).
Proof.
  intros Hfree. rewrite (cleanAdocText_markup_free _ Hfree). split; [done|].
  intros Hss Hh Hl. rewrite single_spaced_fixed by done. by apply trim_fixed.
Qed.

Lemma cleanAdocText_plain_text_witness :
  cleanAdocText (u "ADD performs integer addition.") =
  u "ADD performs integer addition.".
Proof.
  refine (proj2 (cleanAdocText_plain_text (u "ADD performs integer addition.") _)
            _ _ _).
  - compute_list. repeat (constructor; [reflexivity|]). constructor.
  - reflexivity.
  - reflexivity.
  - reflexivity.
Defined.

(** *** Tokens *)

Lemma ws_pieces_run w tail :
  Forall (fun x => is_space x = true) w -> head_not_space tail ->
  ws_pieces true [] (w ++ tail) = ws_pieces false [] tail.
Proof.
  intros Hall Htail. induction Hall as [|x w Hx _ IH]; cbn [app ws_pieces].
  - destruct tail as [|y tail]; [done|]. cbn in *. by rewrite Htail.
  - by rewrite Hx.
Qed.

Lemma split_re_from_ws n : forall rest,
  length rest <= n ->
  forall fuel prev cur,
    length rest < fuel ->
    split_re_from fuel ws_re prev cur rest = ws_pieces false cur rest.
Proof.
  induction n as [|n IH]; intros rest Hn fuel prev cur Hfuel;
    (destruct fuel as [|fuel]; [lia|]).
  - destruct rest; [reflexivity|simpl in Hn; lia].
  - destruct rest as [|x rest]; [reflexivity|].
    simpl in Hn, Hfuel. cbn [split_re_from ws_pieces].
    destruct (is_space x) eqn:Hx.
    + destruct (trimStart_decomp rest) as (w & Hrest & Hw & Hh).
      set (tail := trimStart rest) in *. clearbody tail. subst rest.
      change (x :: w ++ tail) with ((x :: w) ++ tail).
      rewrite (ws_re_run prev (x :: w) tail) by (done || by constructor).
      rewrite (consumed_spec _ _ (x :: w)) by done.
      cbn [ms_skip ms_rest ms_prev].
      rewrite length_app in *.
      rewrite (IH tail) by lia.
      rewrite (ws_pieces_run w tail) by done.
      by destruct cur.
    + rewrite ws_re_no_match by done. apply IH; lia.
Qed.

(** [s.split(/\s+/)] cuts the text at its runs of white space. *)
Lemma split_re_ws s : split_re s ws_re = ws_pieces false [] s.
Proof.
  unfold split_re. destruct s as [|x s]; [reflexivity|].
  apply (split_re_from_ws (length (x :: s))); simpl; lia.
Qed.

Lemma ws_pieces_token p : forall cur rest,
  Forall (fun x => is_space x = false) p ->
  ws_pieces false cur (p ++ rest) = ws_pieces false (rev p ++ cur) rest.
Proof.
  induction p as [|x p IH]; intros cur rest Hp; [done|].
  apply Forall_cons in Hp as [Hx Hp]. cbn [app ws_pieces rev]. rewrite Hx.
  rewrite IH by done. by rewrite <- app_assoc.
Qed.

Lemma join_head sep p ps :
  exists tail, join sep (p :: ps) = p ++ tail.
Proof.
  destruct ps as [|q ps]; [exists []; by rewrite app_nil_r|].
  by exists (sep ++ join sep (q :: ps)).
Qed.

(** Joining tokens with single spaces and splitting at white space gives the
    tokens back. *)
Lemma split_join_tokens parts :
  parts <> [] -> Forall token parts ->
  split_re (join (u " ") parts) ws_re = parts.
Proof.
  intros Hne Hall. rewrite split_re_ws. eval_u.
  induction Hall as [|p ps [Hp0 Hp] Hps IH]; [done|].
  destruct ps as [|q ps].
  - cbn [join]. rewrite <- (app_nil_r p) at 1.
    rewrite ws_pieces_token by done. cbn [ws_pieces].
    by rewrite app_nil_r, rev_involutive.
  - change (join [32%N] (p :: q :: ps))
      with (p ++ [32%N] ++ join [32%N] (q :: ps)).
    rewrite ws_pieces_token by done. cbn [app ws_pieces].
    change (is_space 32) with true. cbn iota.
    rewrite app_nil_r, rev_involutive. f_equal.
    transitivity (ws_pieces false [] (join [32%N] (q :: ps))); [|by apply IH].
    destruct (join_head [32%N] q ps) as [tail ->].
    apply Forall_cons in Hps as [[Hq0 Hq] _].
    destruct q as [|y q]; [done|]. apply Forall_cons in Hq as [Hy _].
    cbn [app ws_pieces]. by rewrite Hy.
Qed.

(** *** A token in its line *)

Lemma encodingPart_empty acc : encodingPart acc [] = acc.
Proof. destruct acc as [operands encoding]. reflexivity. Qed.

Lemma encodingPart_shift operands encoding part :
  encodingPart (operands, encoding) part =
  (operands ++ (encodingPart ([], []) part).1,
   encoding ++ (encodingPart ([], []) part).2).
Proof.
  unfold encodingPart. destruct (has_operand part); [by rewrite app_nil_r|].
  destruct (exec range_re part); [by rewrite app_nil_r|].
  destruct (exec single_re part); by rewrite !app_nil_r.
Qed.

Lemma encoding_fold_shift parts : forall operands encoding,
  fold_left encodingPart parts (operands, encoding) =
  (operands ++ (fold_left encodingPart parts ([], [])).1,
   encoding ++ (fold_left encodingPart parts ([], [])).2).
Proof.
  induction parts as [|part parts IH]; intros operands encoding.
  - by rewrite !app_nil_r.
  - rewrite !fold_left_cons, encodingPart_shift, IH.
    destruct (encodingPart ([], []) part) as [o1 e1] eqn:Hp. cbn [fst snd].
    rewrite (IH o1 e1). cbn [fst snd]. by rewrite !app_assoc.
Qed.

(** White space after a cut adds no part but an empty one. *)
Lemma encoding_fold_run w b : forall acc,
  Forall (fun x => is_space x = true) w ->
  fold_left encodingPart (ws_pieces true [] (w ++ b)) acc =
  fold_left encodingPart (ws_pieces false [] b) acc.
Proof.
  intros acc Hw. induction Hw as [|x w Hx _ IH]; cbn [app ws_pieces].
  - destruct b as [|y b]; [done|]. cbn [ws_pieces].
    destruct (is_space y); [|done].
    by rewrite fold_left_cons, encodingPart_empty.
  - by rewrite Hx.
Qed.

Lemma encoding_fold_gap a w b :
  w <> [] -> Forall (fun x => is_space x = true) w ->
  forall inrun cur acc,
    (inrun = true -> cur = []) ->
    fold_left encodingPart (ws_pieces inrun cur (a ++ w ++ b)) acc =
    fold_left encodingPart (ws_pieces false [] b)
      (fold_left encodingPart (ws_pieces inrun cur a) acc).
Proof.
  intros Hw0 Hw. induction a as [|x a IH]; intros inrun cur acc Hrun.
  - destruct w as [|y w]; [done|]. apply Forall_cons in Hw as [Hy Hw].
    cbn [app ws_pieces]. rewrite Hy. destruct inrun.
    + rewrite (Hrun eq_refl). cbn [rev]. rewrite fold_left_cons, encodingPart_empty.
      by apply encoding_fold_run.
    + rewrite !fold_left_cons. by apply encoding_fold_run.
  - cbn [app ws_pieces]. destruct (is_space x).
    + destruct inrun; [by apply IH|].
      rewrite !fold_left_cons. by apply IH.
    + by apply IH.
Qed.

(** An encoding line is read stretch by stretch: across white space the
    operands and the bit fields of the two sides are appended. *)
Lemma parseEncodingLine_gap a w b :
  w <> [] -> Forall (fun x => is_space x = true) w ->
  parseEncodingLine (a ++ w ++ b) =
  ((parseEncodingLine a).1 ++ (parseEncodingLine b).1,
   (parseEncodingLine a).2 ++ (parseEncodingLine b).2).
Proof.
  intros Hw0 Hw. unfold parseEncodingLine. rewrite !split_re_ws.
  rewrite encoding_fold_gap by done.
  destruct (fold_left encodingPart (ws_pieces false [] a) ([], [])) as [o e].
  apply encoding_fold_shift.
Qed.

Lemma parseEncodingLine_empty : parseEncodingLine [] = ([], []).
Proof. reflexivity. Qed.

(** A token between two gaps of a line. *)
Lemma parseEncodingLine_between before w1 t w2 after :
  gap before w1 -> gap after w2 ->
  parseEncodingLine (before ++ w1 ++ t ++ w2 ++ after) =
  ((parseEncodingLine before).1 ++ (parseEncodingLine t).1
     ++ (parseEncodingLine after).1,
   (parseEncodingLine before).2 ++ (parseEncodingLine t).2
     ++ (parseEncodingLine after).2).
Proof.
  intros [Hw1 Hb] [Hw2 Ha].
  assert (parseEncodingLine (t ++ w2 ++ after) =
          ((parseEncodingLine t).1 ++ (parseEncodingLine after).1,
           (parseEncodingLine t).2 ++ (parseEncodingLine after).2)) as Htail.
  { destruct w2 as [|y w2].
    - rewrite (Ha eq_refl). cbn [app]. rewrite app_nil_r.
      change (parseEncodingLine []) with (@nil str, @nil BitField).
      cbn [fst snd]. rewrite !app_nil_r. by destruct (parseEncodingLine t).
    - by apply parseEncodingLine_gap. }
  destruct w1 as [|x w1].
  - rewrite (Hb eq_refl).
    change (parseEncodingLine []) with (@nil str, @nil BitField).
    cbn [app fst snd]. exact Htail.
  - rewrite parseEncodingLine_gap, Htail by done. reflexivity.
Qed.

Lemma digits_no_space w :
  Forall (fun x => is_dec x = true) w -> Forall (fun x => is_space x = false) w.
Proof.
  intros Hw. eapply Forall_impl; [exact Hw|].
  intros x Hx. by apply printable_not_space, digit_printable.
Qed.

Lemma no_space_no_terminator v :
  Forall (fun x => is_space x = false) v ->
  Forall (fun x => is_line_terminator x = false) v.
Proof.
  intros Hv. eapply Forall_impl; [exact Hv|]. intros x Hx.
  destruct (is_line_terminator x) eqn:Ht; [|done].
  apply terminator_is_space in Ht. congruence.
Qed.

Lemma digits_start hs tail :
  hs <> [] -> Forall (fun x => is_dec x = true) hs ->
  starts_with_digit (hs ++ tail) = true.
Proof.
  intros Hne Hhs. destruct hs as [|h hs]; [done|]. simpl.
  by apply Forall_cons in Hhs as [Hh _].
Qed.

(** A bit-range token that is the whole line. *)
Lemma range_token_alone hs ls v :
  hs <> [] -> Forall (fun x => is_dec x = true) hs ->
  ls <> [] -> Forall (fun x => is_dec x = true) ls ->
  v <> [] -> Forall (fun x => is_space x = false) v ->
  parseEncodingLine (hs ++ u ".." ++ ls ++ u "=" ++ v) =
    ([], [mkBitField (parseInt hs None) (parseInt ls None)
            (VNumber (field_number v))]).
Proof.
  intros Hhs0 Hhs Hls0 Hls Hv0 Hvs.
  rewrite parseEncodingLine_token.
  - unfold encodingPart. rewrite has_operand_digit by by apply digits_start.
    destruct (range_re_match hs ls v) as (st' & Hm & Hcaps);
      try done; [by apply no_space_no_terminator|].
    apply exec_of_match in Hm as (m & -> & Hm).
    unfold group. rewrite Hm, Hcaps. reflexivity.
  - destruct hs; done.
  - eval_u. rewrite !Forall_app, !Forall_cons.
    repeat split; auto using digits_no_space.
Qed.

(** A single-bit token that is the whole line. *)
Lemma single_token_alone hs v :
  hs <> [] -> Forall (fun x => is_dec x = true) hs ->
  v <> [] -> Forall (fun x => is_space x = false) v ->
  parseEncodingLine (hs ++ u "=" ++ v) =
    ([], [mkBitField (parseInt hs None) (parseInt hs None)
            (VNumber (field_number v))]).
Proof.
  intros Hhs0 Hhs Hv0 Hvs.
  pose proof (no_space_no_terminator _ Hvs) as Hvt.
  rewrite parseEncodingLine_token.
  - unfold encodingPart. rewrite has_operand_digit by by apply digits_start.
    rewrite range_re_single_token by done.
    destruct (single_re_match hs v) as (st' & Hm & Hcaps); try done.
    apply exec_of_match in Hm as (m & -> & Hm).
    unfold group. rewrite Hm, Hcaps. reflexivity.
  - destruct hs; done.
  - eval_u. rewrite !Forall_app, !Forall_cons.
    repeat split; auto using digits_no_space.
Qed.

Lemma parseInt_bound ds :
  ds <> [] -> Forall (fun x => is_dec x = true) ds -> (numeral 10 ds <= 31)%N ->
  parseInt ds None = Int (numeral 10 ds).
Proof.
  intros Hne Hds Hb. rewrite parseInt_dec by done. apply small_number.
  assert (2 ^ 53 = 9007199254740992)%N as -> by reflexivity. lia.
Qed.

(** C4. Take a line and in it a token [h..l=v] with decimal [h] and [l],
    [0 <= l <= h <= 31], set off by white space from what comes before and
    after it, or standing at either end of the line.  The token adds exactly
    one bit field, between the fields of what comes before and those of what
    comes after, and no operand: a field with that [high], that [low], and
    the value the script reads from [v], [parseInt(v, 16)] when [v] starts
    with [0x] and [parseInt(v)] otherwise.  A single-bit token [h=v] adds one
    bit field with [high = low = h] in the same way.  For a literal [v], [0x]
    and hexadecimal digits or decimal digits alone, that value is the number
    the literal denotes in its base, the integer itself below [2^53]. *)
Theorem C4_bit_range_token before w1 hs ls v w2 after :
  gap before w1 -> gap after w2 ->
  hs <> [] -> Forall (fun x => is_dec x = true) hs ->
  ls <> [] -> Forall (fun x => is_dec x = true) ls ->
  (0 <= numeral 10 ls <= numeral 10 hs)%N -> (numeral 10 hs <= 31)%N ->
  v <> [] -> Forall (fun x => is_space x = false) v ->
  let b := parseEncodingLine before in
  let a := parseEncodingLine after in
  parseEncodingLine
    (before ++ w1 ++ (hs ++ u ".." ++ ls ++ u "=" ++ v) ++ w2 ++ after) =
    (b.1 ++ a.1,
     b.2 ++ mkBitField (Int (numeral 10 hs)) (Int (numeral 10 ls))
              (VNumber (field_number v)) :: a.2)
  /\ parseEncodingLine (before ++ w1 ++ (hs ++ u "=" ++ v) ++ w2 ++ after) =
    (b.1 ++ a.1,
     b.2 ++ mkBitField (Int (numeral 10 hs)) (Int (numeral 10 hs))
              (VNumber (field_number v)) :: a.2)
  /\ (forall n, literal v n ->
       field_number v = number_of_N false n
       /\ ((n < 2 ^ 53)%N -> field_number v = Int n)).
Proof.
  intros Hb Ha Hhs0 Hhs Hls0 Hls Hlh Hh31 Hv0 Hvs b a.
  split; [|split].
  - rewrite parseEncodingLine_between, range_token_alone by done.
    rewrite !parseInt_bound by (done || lia). reflexivity.
  - rewrite parseEncodingLine_between, single_token_alone by done.
    rewrite !parseInt_bound by (done || lia). reflexivity.
  - intros n Hlit. rewrite (field_number_literal _ _ Hlit).
    split; [done|apply small_number].
Qed.

Lemma C4_witness :
  parseEncodingLine (u "31..25=0 14..12=0 6..2=0x0C 1..0=3") =
    ([], [mkBitField (Int 31) (Int 25) (VNumber (Int 0));
          mkBitField (Int 14) (Int 12) (VNumber (Int 0));
          mkBitField (Int 6) (Int 2) (VNumber (Int 12));
          mkBitField (Int 1) (Int 0) (VNumber (Int 3))])
  /\ field_number (u "0x0C") = Int 12.
Proof.
  destruct (C4_bit_range_token (u "31..25=0 14..12=0") (u " ")
              (u "6") (u "2") (u "0x0C") (u " ") (u "1..0=3"))
    as (Hrange & _ & Hlit).
  - split; [repeat constructor|discriminate].
  - split; [repeat constructor|discriminate].
  - discriminate.
  - repeat constructor.
  - discriminate.
  - repeat constructor.
  - vm_compute. split; discriminate.
  - vm_compute. discriminate.
  - discriminate.
  - repeat constructor.
  - split.
    + etransitivity; [exact Hrange|]. vm_compute. reflexivity.
    + apply (Hlit 12%N); [|reflexivity].
      apply (literal_hex (u "0C")); [discriminate|repeat constructor].
Defined.
